(** * fontmake-mp ([fmp.py]): dispatch of font compiles, embedded in Rocq

    The script has two functions, [main] and [build_fonts], and one
    module-level lock.  Both functions are effectful: they print, they
    raise, they call the compiler and they take the lock.  They are
    embedded here statement by statement in a small state-and-exception
    monad whose state carries the chronological log of every observable
    effect.  What the host decides (the file system, the number of cores,
    the outcome of a compile, the failure of an output operation, the order
    in which a pool serves its jobs) is read from a [world]. *)

From Stdlib Require Import String Ascii List Arith Lia ZArith Bool Permutation.
From Stdlib Require Import DecimalString.
Import ListNotations.
Open Scope string_scope.

(** ** Exceptions, streams and events *)

(** Python exceptions as far as the script can tell them apart: instances
    of [Exception] (class name and [str(e)]), which [except Exception]
    catches, and [SystemExit], which [sys.exit] raises and which is a
    [BaseException] only. *)
Inductive exn : Type :=
| PyException (cls msg : string)
| SystemExit (code : Z).

Definition is_Exception (e : exn) : bool :=
  match e with
  | PyException _ _ => true
  | SystemExit _ => false
  end.

(** [str(e)] *)
Definition str_exn (e : exn) : string :=
  match e with
  | PyException _ msg => msg
  | SystemExit code => NilZero.string_of_int (Z.to_int code)
  end.

Definition IndexError : exn := PyException "IndexError" "list index out of range".
Definition ValueError (msg : string) : exn := PyException "ValueError" msg.

Inductive stream : Type := Stdout | Stderr.

(** One entry of the log per effect that took place. *)
Inductive event : Type :=
| EWrite (s : stream) (text : string)          (* text written to a stream *)
| EFlush (s : stream)                          (* sys.stdout.flush() *)
| ETraceback (s : stream) (e : exn)            (* the formatted traceback of e *)
| ECompile (ufo_path : string) (output : list string)
                                               (* FontProject().run_from_ufos(...) entered *)
| EAcquire                                     (* lock.acquire() returned *)
| ERelease                                     (* lock.release() *)
| EPool (processes : nat).                     (* Pool(processes) created *)

(** ** The host *)

Record world : Type := {
  (* os.path.isdir *)
  isdir : string -> bool;
  (* multiprocessing.cpu_count() *)
  cpu_count : nat;
  (* os.linesep *)
  linesep : string;
  (* the compile entered at tick n on a path: None, it completes; Some e, it raises e *)
  run_from_ufos : nat -> string -> option exn;
  (* the output operation attempted at tick n: Some e, it raises e and writes nothing *)
  io_fault : nat -> option exn;
  (* which pending job the pool serves next, at tick n *)
  pick : nat -> nat
}.

(** ** Program state and the monad *)

Record state : Type := {
  log : list event;      (* effects so far, oldest first *)
  lock_held : bool;      (* the module-level lock = Lock() *)
  tick : nat             (* number of host operations attempted so far *)
}.

Definition initial_state : state :=
  {| log := []; lock_held := false; tick := 0 |}.

(** A statement returns, raises, or never comes back (a blocked
    [lock.acquire()], a [Pool.map] whose worker died). *)
Inductive outcome (A : Type) : Type :=
| Returns (a : A)
| Raises (e : exn)
| Blocks.
Arguments Returns {A} a.
Arguments Raises {A} e.
Arguments Blocks {A}.

Definition M (A : Type) : Type := state -> outcome A * state.

Definition ret {A} (a : A) : M A := fun st => (Returns a, st).

Definition bind {A B} (m : M A) (k : A -> M B) : M B :=
  fun st =>
    match m st with
    | (Returns a, st') => k a st'
    | (Raises e, st') => (Raises e, st')
    | (Blocks, st') => (Blocks, st')
    end.

Definition raise {A} (e : exn) : M A := fun st => (Raises e, st).

Declare Scope py_scope.
Delimit Scope py_scope with py.
Notation "x <- m ;; k" := (bind m (fun x => k))
  (at level 100, m at next level, right associativity) : py_scope.
Notation "m ;; k" := (bind m (fun _ => k))
  (at level 100, right associativity) : py_scope.
Open Scope py_scope.

(** [for x in l: body(x)] *)
Fixpoint for_each {A} (l : list A) (body : A -> M unit) : M unit :=
  match l with
  | [] => ret tt
  | x :: l' => body x ;; for_each l' body
  end.

(** [try: body / except Exception as e: handler(e)]: only instances of
    [Exception] reach the handler. *)
Definition try_except_Exception {A} (body : M A) (handler : exn -> M A) : M A :=
  fun st =>
    match body st with
    | (Raises e, st') => if is_Exception e then handler e st' else (Raises e, st')
    | r => r
    end.

(** ** Module constants *)

Definition PROCESSES : nat := 0.
Definition BUILD_FILE_TYPE : list string := ["ttf"; "otf"].
Definition VERSION_NUMBER : string := "1.0.0".
Definition VERSION : string := "fontmake-mp v" ++ VERSION_NUMBER.
Definition USAGE : string :=
  "[./fmp.py|fontmake-mp] (--ttf|--otf) [UFO file path 1] (UFO file path ...)".
Definition HELP : string := "
===================================================================
 fontmake-mp
   Parallel font compilation from UFO source files with fontmake
   
   Copyright 2018 Christopher Simpkins
   MIT License

   Source Repository: https://github.com/source-foundry/fontmake-mp
====================================================================

fontmake-mp compiles *.otf and/or *.ttf font binaries from UFO source files in parallel.

Execute fontmake-mp with the fmp.py Python script (located in the root of repository) or the fontmake-mp executable (located in the repository releases).

Usage:
  Execution of Python script:
     $ python fmp.py (--ttf|--otf) [UFO file path 1] (UFO file path ...)
     
  Execution of executable file installed on system PATH
     $ fontmake-mp (--ttf|--otf) [UFO file path 1] (UFO file path ...)
     
Options:
  --otf          Build *.otf files only (optional, default=*.otf AND *.ttf)
  --ttf          Build *.ttf files only (optional, default=*.otf AND *.ttf)
  
  -h, --help     Display help text
      --usage    Display application usage
  -v, --version  Display application version

Fonts are compiled in the working directory on the directory path(s) master_otf and/or master_ttf.
".

(** The line feed that [print] appends. *)
Definition LF : string := String (ascii_of_nat 10) EmptyString.

(** [str(n)] for a non-negative integer *)
Definition str_nat (n : nat) : string := NilZero.string_of_uint (Nat.to_uint n).

(** [s[-4:]]: the last four characters, or all of [s] when it is shorter. *)
Definition last4 (s : string) : string :=
  substring (String.length s - 4) 4 s.

(** [x in (a, b, ...)] on strings *)
Definition in_tuple (x : string) (t : list string) : bool :=
  existsb (String.eqb x) t.

Section Script.

Variable W : world.

(** ** Primitive statements *)

Definition advance (st : state) : state :=
  {| log := log st; lock_held := lock_held st; tick := S (tick st) |}.

Definition record (ev : event) (st : state) : state :=
  {| log := log st ++ [ev]; lock_held := lock_held st; tick := S (tick st) |}.

Definition emit (ev : event) : M unit := fun st => (Returns tt, record ev st).

(** An output operation: it takes effect, or the host makes it raise. *)
Definition output (ev : event) : M unit :=
  fun st =>
    match io_fault W (tick st) with
    | Some e => (Raises e, advance st)
    | None => emit ev st
    end.

(** [print(s)] *)
Definition print (s : string) : M unit := output (EWrite Stdout (s ++ LF)).

(** [sys.stderr.write(s)] *)
Definition stderr_write (s : string) : M unit := output (EWrite Stderr s).

(** [sys.stdout.flush()] *)
Definition stdout_flush : M unit := output (EFlush Stdout).

(** [traceback.print_exc()] inside the handler of [e]: to standard error. *)
Definition print_exc (e : exn) : M unit := output (ETraceback Stderr e).

(** [sys.exit(code)] *)
Definition sys_exit {A} (code : Z) : M A := raise (SystemExit code).

(** [l[i]] *)
Definition getitem (l : list string) (i : nat) : M string :=
  match nth_error l i with
  | Some x => ret x
  | None => raise IndexError
  end.

(** [lock.acquire()]: blocks for ever on a lock that is never released. *)
Definition lock_acquire : M unit :=
  fun st =>
    if lock_held st then (Blocks, st)
    else (Returns tt,
          {| log := log st ++ [EAcquire]; lock_held := true; tick := S (tick st) |}).

(** [lock.release()] *)
Definition lock_release : M unit :=
  fun st =>
    if lock_held st then
      (Returns tt,
       {| log := log st ++ [ERelease]; lock_held := false; tick := S (tick st) |})
    else (Raises (ValueError "semaphore or lock released too many times"), st).

(** [fp = FontProject(); fp.run_from_ufos(ufo_path, output=output)]: the
    compiler, whose outcome the host decides. *)
Definition FontProject_run_from_ufos (ufo_path : string) (output : list string) : M unit :=
  fun st =>
    match run_from_ufos W (tick st) ufo_path with
    | None => (Returns tt, record (ECompile ufo_path output) st)
    | Some e => (Raises e, record (ECompile ufo_path output) st)
    end.

(** [Pool(processes)]: refuses fewer than one process. *)
Definition Pool (processes : nat) : M nat :=
  if (processes <? 1)%nat then raise (ValueError "Number of processes must be at least 1")
  else (emit (EPool processes) ;; ret processes).

(** ** [build_fonts] *)

Definition build_fonts (ufo_path : string) : M unit :=
  try_except_Exception
    (FontProject_run_from_ufos ufo_path BUILD_FILE_TYPE)
    (fun e =>
       lock_acquire ;;
       print " " ;;
       print ("[ERROR] The fontmake compile for "
              ++ ufo_path
              ++ " failed with the following error"
              ++ ":" ++ linesep W) ;;
       stdout_flush ;;
       print_exc e ;;
       print (str_exn e) ;;
       stdout_flush ;;
       lock_release).

(** ** [Pool.map]

    [p.map(func, iterable)] of Python 3's [multiprocessing].  The iterable
    is cut into tasks, consecutive chunks of [chunksize] jobs, and the
    workers of the pool take the tasks in an order the host chooses; a
    worker runs the jobs of its task one after the other.  The model
    serves the tasks one at a time, in the order [pick] dictates.

    - A job that raises an [Exception] ends its task: the worker sends the
      exception back and takes the next task; [map] keeps the first
      exception sent back and raises it in the caller once every task has
      answered.
    - A job that leaves with any other exception ends its worker process:
      the task never answers, the pool starts a new worker, and [map]
      never returns.
    - A job that blocks keeps its worker for ever: the task never
      answers, and when no worker is left no further task is served. *)

(** The default chunk size: [divmod(len(iterable), len(pool) * 4)], one
    more when there is a remainder. *)
Definition chunksize (n processes : nat) : nat :=
  let q := n / (processes * 4) in
  let extra := n mod (processes * 4) in
  if (extra =? 0)%nat then q else S q.

(** The tasks: slices of [size] jobs until the iterable is used up. *)
Fixpoint get_tasks {A} (fuel size : nat) (it : list A) : list (list A) :=
  match fuel, it with
  | S fuel', _ :: _ => firstn size it :: get_tasks fuel' size (skipn size it)
  | _, _ => []
  end.

Fixpoint remove_nth {A} (k : nat) (l : list A) : list A :=
  match l, k with
  | [], _ => []
  | _ :: l', 0 => l'
  | x :: l', S k' => x :: remove_nth k' l'
  end.

(** What [map] does once no task is left to serve. *)
Definition map_result (failure : option exn) (lost : bool) : M unit :=
  if lost then (fun st => (Blocks, st))
  else match failure with
       | Some e => raise e
       | None => ret tt
       end.

(** [n] bounds the number of pending tasks; [workers] is the number of
    workers that are not blocked; [failure] is the first exception sent
    back so far; [lost] tells that some task will never answer. *)
Fixpoint serve (func : string -> M unit) (n workers : nat) (pending : list (list string))
    (failure : option exn) (lost : bool) : M unit :=
  match n with
  | 0 => map_result failure lost
  | S n' =>
      fun st =>
        let k := pick W (tick st) mod length pending in
        match nth_error pending k with
        | None => map_result failure lost st
        | Some task =>
            if (workers =? 0)%nat then (Blocks, st)
            else
              let rest := remove_nth k pending in
              match for_each task func st with
              | (Returns _, st') => serve func n' workers rest failure lost st'
              | (Raises e, st') =>
                  if is_Exception e then
                    serve func n' workers rest
                      (match failure with Some _ => failure | None => Some e end) lost st'
                  else serve func n' workers rest failure true st'
              | (Blocks, st') => serve func n' (workers - 1) rest failure true st'
              end
        end
  end.

(** [p.map(func, iterable)] on a pool [p] of [processes] workers; the list
    of results is not used by the caller. *)
Definition pool_map (processes : nat) (func : string -> M unit) (iterable : list string)
  : M unit :=
  let tasks :=
    get_tasks (length iterable) (chunksize (length iterable) processes) iterable in
  serve func (length tasks) processes tasks None false.

(** ** [main]

    The body of [main] is cut where its own comments cut it: the flag
    handling, the command line error handling, and the compile. *)

(** [# help, version, usage flag handling] *)
Definition flag_handling (argv : list string) : M unit :=
  c_help <- (a <- getitem argv 0 ;; ret (in_tuple a ["-h"; "--help"])) ;;
  if c_help then
    print HELP ;; sys_exit 0
  else
    c_version <- (a <- getitem argv 0 ;; ret (in_tuple a ["-v"; "--version"])) ;;
    if c_version then
      print VERSION ;; sys_exit 0
    else
      c_usage <- (a <- getitem argv 0 ;; ret (a =? "--usage")) ;;
      if c_usage then
        print USAGE ;; sys_exit 0
      else ret tt.

(** [# Command line error handling] *)
Definition command_line_error_handling (source_path_list : list string) : M unit :=
  (if (length source_path_list =? 0)%nat then
     stderr_write
       ("[ERROR] Please include one or more paths to UFO source directories as "
        ++ "arguments to the script." ++ linesep W) ;;
     sys_exit 1
   else ret tt) ;;
  for_each source_path_list (fun source_path =>
    if (String.length source_path <? 5)%nat then   (* not a proper *.ufo file path *)
      stderr_write
        ("[ERROR] '"
         ++ source_path
         ++ "' is not properly formatted as a path to a UFO source "
         ++ "directory" ++ linesep W) ;;
      sys_exit 1
    else if negb (last4 source_path =? ".ufo") then   (* no .ufo directory extension *)
      stderr_write
        ("[ERROR] '"
         ++ source_path
         ++ "' does not appear to be a UFO source directory"
         ++ linesep W) ;;
      sys_exit 1
    else if negb (isdir W source_path) then   (* is not an existing directory path *)
      stderr_write
        ("[ERROR] '"
         ++ source_path
         ++ "' does not appear to be a valid path to a UFO source "
         ++ "directory" ++ linesep W) ;;
      sys_exit 1
    else ret tt).

(** [# begin compile]; [processes > len(source_path_list)] is written
    [len(source_path_list) < processes]. *)
Definition begin_compile (processes : nat) (source_path_list : list string) : M unit :=
  print " " ;;
  print "[*] Beginning fontmake-mp font compile..." ;;
  if (length source_path_list =? 1)%nat then
    (* only one source compile: no processes are spawned *)
    print "[*] Single font compile requested. Concurrency is not necessary.  No additional processes spawned..." ;;
    print " " ;;
    p0 <- getitem source_path_list 0 ;;
    build_fonts p0 ;;
    sys_exit 0
  else
    processes <-
      (if (processes =? 0)%nat then
         let processes := cpu_count W in
         print ("[*] Detected " ++ str_nat (cpu_count W) ++ " cores...") ;;
         ret processes
       else
         print ("[*] Spawning " ++ str_nat processes ++ " processes for the compile...") ;;
         ret processes) ;;
    processes <-
      (if (length source_path_list <? processes)%nat then
         let processes := length source_path_list in
         print ("[*] Limiting spawned process number to the number of font compiles needed "
                ++ "(" ++ str_nat processes ++ ")...") ;;
         ret processes
       else ret processes) ;;
    print "[*] Output from the fontmake compiler will appear out of order below. This is expected..." ;;
    print " " ;;
    print " " ;;
    p <- Pool processes ;;
    pool_map p build_fonts source_path_list ;;
    sys_exit 0.

Definition main (argv : list string) : M unit :=
  flag_handling argv ;;
  let processes := PROCESSES in
  (* TODO in the source: --ttf and --otf are not handled *)
  let source_path_list := argv in
  command_line_error_handling source_path_list ;;
  begin_compile processes source_path_list.

(** ** The script run by the interpreter

    [if __name__ == "__main__": main(sys.argv[1:])].  The interpreter turns
    what [main] does into the end of the process: a [SystemExit] gives the
    low eight bits of its code as exit status, as a POSIX host reports
    [exit(code)] for a code that fits a C [int] ([sys.exit(256)] gives 0,
    [sys.exit(-1)] gives 255); any other uncaught exception is reported as a
    traceback on standard error (when that write goes through) and gives
    exit status 1; a run that blocks has no exit status. *)
Definition report_uncaught (e : exn) (st : state) : state :=
  match io_fault W (tick st) with
  | Some _ => advance st
  | None => record (ETraceback Stderr e) st
  end.

Definition script (argv : list string) : option Z * state :=
  match main argv initial_state with
  | (Returns _, st) => (Some 0%Z, st)
  | (Raises (SystemExit code), st) => (Some (code mod 256)%Z, st)
  | (Raises e, st) => (Some 1%Z, report_uncaught e st)
  | (Blocks, st) => (None, st)
  end.

End Script.

(** * Observations on a run *)

(** The source paths handed to the compiler, in the order of the calls. *)
Fixpoint compiled (l : list event) : list string :=
  match l with
  | [] => []
  | ECompile p _ :: l' => p :: compiled l'
  | _ :: l' => compiled l'
  end.

(** The sizes of the pools created. *)
Fixpoint pools (l : list event) : list nat :=
  match l with
  | [] => []
  | EPool n :: l' => n :: pools l'
  | _ :: l' => pools l'
  end.

(** What the host may be assumed to do. *)
Definition no_io_fault (W : world) : Prop :=
  forall n, io_fault W n = None.

Definition ordinary_failures (W : world) : Prop :=
  forall n p e, run_from_ufos W n p = Some e -> is_Exception e = true.

(** A path that passes the three tests of the command line error handling. *)
Definition valid_path (W : world) (source_path : string) : bool :=
  (5 <=? String.length source_path)%nat
  && (last4 source_path =? ".ufo")
  && isdir W source_path.

(** The first argument asks for the help, version or usage text. *)
Definition is_flag (a : string) : bool :=
  in_tuple a ["-h"; "--help"] || in_tuple a ["-v"; "--version"] || (a =? "--usage").

(** The diagnostic the command line error handling writes for a path that
    fails one of its tests. *)
Definition path_diagnostic (W : world) (source_path : string) : string :=
  if (String.length source_path <? 5)%nat then
    "[ERROR] '" ++ source_path
    ++ "' is not properly formatted as a path to a UFO source directory" ++ linesep W
  else if negb (last4 source_path =? ".ufo") then
    "[ERROR] '" ++ source_path
    ++ "' does not appear to be a UFO source directory" ++ linesep W
  else
    "[ERROR] '" ++ source_path
    ++ "' does not appear to be a valid path to a UFO source directory" ++ linesep W.

(** The message of the empty-list branch of the command line error handling. *)
Definition please_include (W : world) : string :=
  "[ERROR] Please include one or more paths to UFO source directories as "
  ++ "arguments to the script." ++ linesep W.

(** The events of a failed compile of [ufo_path] whose exception [e] was
    caught, as [build_fonts] produces them when every write goes through. *)
Definition failure_report (W : world) (ufo_path : string) (e : exn) : list event :=
  [ ECompile ufo_path BUILD_FILE_TYPE;
    EAcquire;
    EWrite Stdout (" " ++ LF);
    EWrite Stdout (("[ERROR] The fontmake compile for " ++ ufo_path
                    ++ " failed with the following error" ++ ":" ++ linesep W) ++ LF);
    EFlush Stdout;
    ETraceback Stderr e;
    EWrite Stdout (str_exn e ++ LF);
    EFlush Stdout;
    ERelease ].

(** The four progress lines of a single font compile. *)
Definition single_progress : list event :=
  [ EWrite Stdout (" " ++ LF);
    EWrite Stdout ("[*] Beginning fontmake-mp font compile..." ++ LF);
    EWrite Stdout ("[*] Single font compile requested. Concurrency is not necessary.  No additional processes spawned..." ++ LF);
    EWrite Stdout (" " ++ LF) ].

(** The progress lines of a compile in a pool, for [n] source paths. *)
Definition pool_progress (W : world) (n : nat) : list event :=
  [ EWrite Stdout (" " ++ LF);
    EWrite Stdout ("[*] Beginning fontmake-mp font compile..." ++ LF);
    EWrite Stdout (("[*] Detected " ++ str_nat (cpu_count W) ++ " cores...") ++ LF) ]
  ++ (if (n <? cpu_count W)%nat then
        [ EWrite Stdout
            (("[*] Limiting spawned process number to the number of font compiles needed "
              ++ "(" ++ str_nat n ++ ")...") ++ LF) ]
      else [])%list
  ++ [ EWrite Stdout ("[*] Output from the fontmake compiler will appear out of order below. This is expected..." ++ LF);
       EWrite Stdout (" " ++ LF);
       EWrite Stdout (" " ++ LF) ]%list.

(** Writes and flushes on standard output, tracebacks on standard error. *)
Definition report_discipline (ev : event) : Prop :=
  match ev with
  | EWrite s _ => s = Stdout
  | EFlush s => s = Stdout
  | ETraceback s _ => s = Stderr
  | _ => True
  end.

(** ** What a statement may add to the log *)

(** [only P m]: whatever the host does, [m] only appends to the log, and
    only events that satisfy [P]. *)
Definition only (P : event -> Prop) {A} (m : M A) : Prop :=
  forall st, exists new, log (snd (m st)) = (log st ++ new)%list /\ Forall P new.

(** The events a job can add to the log. *)
Definition job_event (ev : event) : Prop :=
  match ev with
  | ECompile _ _ | EAcquire | ERelease => True
  | EWrite Stdout _ | EFlush Stdout | ETraceback Stderr _ => True
  | _ => False
  end.

(** The events the compile block of [main] can add to the log. *)
Definition compile_event (ev : event) : Prop :=
  match ev with
  | EPool _ => True
  | _ => job_event ev
  end.

(** What the handler of [build_fonts] can add to the log. *)
Definition handler_event (ev : event) : Prop :=
  match ev with
  | EAcquire | ERelease => True
  | EWrite Stdout _ | EFlush Stdout | ETraceback Stderr _ => True
  | _ => False
  end.

(** The text written to a stream, in order. *)
Fixpoint written (s : stream) (l : list event) : string :=
  match l with
  | [] => ""
  | EWrite Stdout text :: l' =>
      match s with Stdout => text ++ written s l' | Stderr => written s l' end
  | EWrite Stderr text :: l' =>
      match s with Stderr => text ++ written s l' | Stdout => written s l' end
  | _ :: l' => written s l'
  end.

(** The exit status as the argument list and the file system alone decide
    it: no compile outcome appears in it. *)
Definition expected_status (W : world) (argv : list string) : Z :=
  match argv with
  | [] => 1
  | a :: _ =>
      if is_flag a then 0
      else if forallb (valid_path W) argv then 0
      else 1
  end.

(** * Hosts used in examples *)

Definition host (compile : nat -> string -> option exn) (fault : nat -> option exn) : world :=
  {| isdir := fun _ => true;
     cpu_count := 4;
     linesep := LF;
     run_from_ufos := compile;
     io_fault := fault;
     pick := fun n => n |}.

Definition bad_glyph : exn := PyException "FontmakeError" "bad glyph".
Definition broken_pipe : exn := PyException "BrokenPipeError" "[Errno 32] Broken pipe".

(** Every compile completes. *)
Definition quiet_host : world := host (fun _ _ => None) (fun _ => None).

(** The compile of [b.ufo] fails with an [Exception]. *)
Definition failing_host : world :=
  host (fun _ p => if p =? "b.ufo" then Some bad_glyph else None) (fun _ => None).

(** The compile of [b.ufo] leaves through [sys.exit(3)]. *)
Definition exiting_host : world :=
  host (fun _ p => if p =? "b.ufo" then Some (SystemExit 3) else None) (fun _ => None).

(** The compile of [b.ufo] fails and standard output is a closed pipe from
    the third operation on. *)
Definition broken_pipe_host : world :=
  host (fun _ p => if p =? "b.ufo" then Some bad_glyph else None)
       (fun n => if (2 <=? n)%nat then Some broken_pipe else None).


(** The state of a single-job run when [main] calls [build_fonts]. *)
Definition single_job_state : state :=
  {| log := single_progress; lock_held := false; tick := 4 |}.

(** An event other than the write of the message of the empty-list branch. *)
Definition not_please_include (W : world) (ev : event) : Prop :=
  ev <> EWrite Stderr (please_include W).

(** The progress lines of a run that reaches the compile block, and the
    pool it creates when there are several source paths. *)
Definition dispatch_progress (W : world) (argv : list string) : list event :=
  if (length argv =? 1)%nat then single_progress
  else (pool_progress W (length argv)
        ++ [EPool (Nat.min (cpu_count W) (length argv))])%list.

(** A statement that never hands control back to what follows it. *)
Definition never_returns {A} (m : M A) : Prop :=
  forall st a, fst (m st) <> Returns a.

(** A write of text to one of the two streams. *)
Definition is_write (ev : event) : Prop :=
  match ev with
  | EWrite _ _ => True
  | _ => False
  end.

(** A compile event of a run on [argv]: on one of the paths of [argv], for
    both build file types. *)
Definition compile_of (argv : list string) (ev : event) : Prop :=
  forall p o, ev = ECompile p o -> In p argv /\ o = BUILD_FILE_TYPE.

(** * Basic facts *)

Open Scope list_scope.

Lemma compiled_app l1 l2 : compiled (l1 ++ l2) = (compiled l1 ++ compiled l2)%list.
Proof.
  induction l1 as [|ev l1 IH]; simpl; [reflexivity|].
  destruct ev; simpl; rewrite ?IH; reflexivity.
Qed.

Lemma pools_app l1 l2 : pools (l1 ++ l2) = (pools l1 ++ pools l2)%list.
Proof.
  induction l1 as [|ev l1 IH]; simpl; [reflexivity|].
  destruct ev; simpl; rewrite ?IH; reflexivity.
Qed.

Lemma pools_none l : Forall (fun ev => forall n, ev <> EPool n) l -> pools l = [].
Proof.
  induction 1 as [|ev l Hev _ IH]; simpl; [reflexivity|].
  destruct ev; try assumption. exfalso; eapply Hev; reflexivity.
Qed.

Lemma compiled_none l : Forall (fun ev => forall p o, ev <> ECompile p o) l -> compiled l = [].
Proof.
  induction 1 as [|ev l Hev _ IH]; simpl; [reflexivity|].
  destruct ev; try assumption. exfalso; eapply Hev; reflexivity.
Qed.

Section MonadFacts.

Context {A B C : Type}.

Lemma bind_ret (a : A) (k : A -> M B) st : bind (ret a) k st = k a st.
Proof. reflexivity. Qed.

Lemma bind_raise (e : exn) (k : A -> M B) st : bind (raise e) k st = (Raises e, st).
Proof. reflexivity. Qed.

Lemma bind_assoc (m : M A) (f : A -> M B) (g : B -> M C) st :
  bind (bind m f) g st = bind m (fun x => bind (f x) g) st.
Proof. unfold bind. destruct (m st) as [[a|e|] st']; reflexivity. Qed.

Lemma bind_returns (m : M A) (k : A -> M B) st a st' :
  m st = (Returns a, st') -> bind m k st = k a st'.
Proof. intros H. unfold bind. rewrite H. reflexivity. Qed.

Lemma bind_raises (m : M A) (k : A -> M B) st e st' :
  m st = (Raises e, st') -> bind m k st = (Raises e, st').
Proof. intros H. unfold bind. rewrite H. reflexivity. Qed.

Lemma bind_blocks (m : M A) (k : A -> M B) st st' :
  m st = (Blocks, st') -> bind m k st = (Blocks, st').
Proof. intros H. unfold bind. rewrite H. reflexivity. Qed.

End MonadFacts.

Section Only.

Variable W : world.
Variable P : event -> Prop.

Lemma only_ret {A} (a : A) : only P (ret a).
Proof. intros st. exists []. simpl. rewrite app_nil_r. auto. Qed.

Lemma only_raise {A} (e : exn) : only P (@raise A e).
Proof. intros st. exists []. simpl. rewrite app_nil_r. auto. Qed.

Lemma only_sys_exit {A} (c : Z) : only P (@sys_exit A c).
Proof. apply only_raise. Qed.

Lemma only_bind {A B} (m : M A) (k : A -> M B) :
  only P m -> (forall a, only P (k a)) -> only P (bind m k).
Proof.
  intros Hm Hk st. unfold bind.
  destruct (Hm st) as [new1 [E1 F1]].
  destruct (m st) as [[a|e|] st1]; simpl in E1.
  - destruct (Hk a st1) as [new2 [E2 F2]].
    exists (new1 ++ new2). rewrite E2, E1, app_assoc. split; [reflexivity|].
    apply Forall_app; auto.
  - exists new1. auto.
  - exists new1. auto.
Qed.

Lemma only_emit ev : P ev -> only P (emit ev).
Proof. intros H st. exists [ev]. simpl. auto. Qed.

Lemma only_output ev : P ev -> only P (output W ev).
Proof.
  intros H st. unfold output.
  destruct (io_fault W (tick st)).
  - exists []. simpl. rewrite app_nil_r. auto.
  - apply only_emit; assumption.
Qed.

Lemma only_getitem l i : only P (getitem l i).
Proof.
  unfold getitem. destruct (nth_error l i); [apply only_ret | apply only_raise].
Qed.

Lemma only_lock_acquire : P EAcquire -> only P lock_acquire.
Proof.
  intros H st. unfold lock_acquire. destruct (lock_held st); simpl.
  - exists []. rewrite app_nil_r. auto.
  - exists [EAcquire]. auto.
Qed.

Lemma only_lock_release : P ERelease -> only P lock_release.
Proof.
  intros H st. unfold lock_release. destruct (lock_held st); simpl.
  - exists [ERelease]. auto.
  - exists []. rewrite app_nil_r. auto.
Qed.

Lemma only_compile p o : P (ECompile p o) -> only P (FontProject_run_from_ufos W p o).
Proof.
  intros H st. unfold FontProject_run_from_ufos.
  destruct (run_from_ufos W (tick st) p); exists [ECompile p o]; simpl; auto.
Qed.

Lemma only_Pool n : P (EPool n) -> only P (Pool n).
Proof.
  intros H. unfold Pool. destruct (n <? 1)%nat.
  - apply only_raise.
  - apply only_bind; [apply only_emit; assumption | intros; apply only_ret].
Qed.

Lemma only_try {A} (body : M A) (handler : exn -> M A) :
  only P body -> (forall e, is_Exception e = true -> only P (handler e)) ->
  only P (try_except_Exception body handler).
Proof.
  intros Hb Hh st. unfold try_except_Exception.
  destruct (Hb st) as [new1 [E1 F1]].
  destruct (body st) as [[a|e|] st1]; simpl in E1; try (exists new1; auto; fail).
  destruct (is_Exception e) eqn:He; [|exists new1; auto].
  destruct (Hh e He st1) as [new2 [E2 F2]].
  exists (new1 ++ new2). rewrite E2, E1, app_assoc. split; [reflexivity|].
  apply Forall_app; auto.
Qed.

Lemma only_for_each {A} (l : list A) (body : A -> M unit) :
  (forall x, only P (body x)) -> only P (for_each l body).
Proof.
  intros Hb. induction l as [|x l IH]; simpl.
  - apply only_ret.
  - apply only_bind; auto.
Qed.

Lemma only_for_each_in {A} (l : list A) (body : A -> M unit) :
  (forall x, In x l -> only P (body x)) -> only P (for_each l body).
Proof.
  induction l as [|x l IH]; intros Hb; simpl.
  - apply only_ret.
  - apply only_bind; [apply Hb; left; reflexivity|].
    intros _. apply IH. intros y Hy. apply Hb. right. exact Hy.
Qed.

Lemma only_map_result failure lost : only P (map_result failure lost).
Proof.
  unfold map_result. destruct lost.
  - intros st. exists []. simpl. rewrite app_nil_r. auto.
  - destruct failure; [apply only_raise | apply only_ret].
Qed.

Lemma remove_nth_incl {A} (l : list A) k x : In x (remove_nth k l) -> In x l.
Proof.
  revert k. induction l as [|y l IH]; intros [|k] H; simpl in *; auto.
  destruct H as [H|H]; eauto.
Qed.

(** Serving tasks adds to the log what the jobs of the tasks add. *)
Lemma only_serve_in (func : string -> M unit) n workers pending failure lost :
  (forall task job, In task pending -> In job task -> only P (func job)) ->
  only P (serve W func n workers pending failure lost).
Proof.
  revert workers pending failure lost.
  induction n as [|n IH]; intros workers pending failure lost Hf; simpl.
  - apply only_map_result.
  - intros st.
    destruct (nth_error pending (pick W (tick st) mod length pending)) as [task|] eqn:Htask.
    2:{ apply only_map_result. }
    destruct (workers =? 0)%nat.
    { exists []. simpl. rewrite app_nil_r. auto. }
    assert (Htask_in : In task pending) by (eapply nth_error_In; exact Htask).
    destruct (only_for_each_in task func (fun job => Hf task job Htask_in) st)
      as [new1 [E1 F1]].
    assert (Hrest : forall t j,
               In t (remove_nth (pick W (tick st) mod length pending) pending) ->
               In j t -> only P (func j)).
    { intros t j Ht Hj. eapply Hf; [eapply remove_nth_incl; exact Ht | exact Hj]. }
    destruct (for_each task func st) as [[u|e|] st'] eqn:Hrun; simpl in E1.
    + destruct (IH workers _ failure lost Hrest st') as [new2 [E2 F2]].
      exists (new1 ++ new2). rewrite E2, E1, app_assoc. split; [reflexivity|].
      apply Forall_app; auto.
    + destruct (is_Exception e).
      * destruct (IH workers _ (match failure with Some _ => failure | None => Some e end)
                    lost Hrest st') as [new2 [E2 F2]].
        exists (new1 ++ new2). rewrite E2, E1, app_assoc. split; [reflexivity|].
        apply Forall_app; auto.
      * destruct (IH workers _ failure true Hrest st') as [new2 [E2 F2]].
        exists (new1 ++ new2). rewrite E2, E1, app_assoc. split; [reflexivity|].
        apply Forall_app; auto.
    + destruct (IH (workers - 1) _ failure true Hrest st') as [new2 [E2 F2]].
      exists (new1 ++ new2). rewrite E2, E1, app_assoc. split; [reflexivity|].
      apply Forall_app; auto.
Qed.

Lemma get_tasks_incl {A} fuel size (it : list A) task job :
  In task (get_tasks fuel size it) -> In job task -> In job it.
Proof.
  revert it. induction fuel as [|fuel IH]; intros it Ht Hj; simpl in Ht.
  - destruct Ht.
  - destruct it as [|x it']; [destruct Ht|].
    destruct Ht as [<-|Ht].
    + rewrite <- (firstn_skipn size (x :: it')). apply in_or_app. left. exact Hj.
    + rewrite <- (firstn_skipn size (x :: it')). apply in_or_app. right.
      eapply IH; eassumption.
Qed.

(** [Pool.map] adds to the log what the calls of [func] on the elements of
    the iterable add. *)
Lemma only_pool_map processes (func : string -> M unit) iterable :
  (forall job, In job iterable -> only P (func job)) ->
  only P (pool_map W processes func iterable).
Proof.
  intros Hf. unfold pool_map. apply only_serve_in.
  intros task job Ht Hj. apply Hf. eapply get_tasks_incl; eassumption.
Qed.

End Only.

Lemma only_weaken (P Q : event -> Prop) {A} (m : M A) :
  (forall ev, P ev -> Q ev) -> only P m -> only Q m.
Proof.
  intros HPQ Hm st. destruct (Hm st) as [new [E F]].
  exists new. split; [assumption|]. eapply Forall_impl; eauto.
Qed.

Ltac only_step :=
  first
    [ apply only_ret
    | apply only_sys_exit
    | apply only_raise
    | apply only_getitem
    | apply only_output
    | apply only_lock_acquire
    | apply only_lock_release
    | apply only_compile
    | apply only_Pool
    | apply only_bind; [|intros] ].

Section BuildFonts.

Variable W : world.

Lemma only_build_fonts ufo_path : only job_event (build_fonts W ufo_path).
Proof.
  unfold build_fonts, print, stdout_flush, print_exc.
  apply only_try; [apply only_compile; exact I|].
  intros e He. repeat only_step; exact I.
Qed.

Lemma output_ok ev st :
  io_fault W (tick st) = None -> output W ev st = (Returns tt, record ev st).
Proof. intros H. unfold output. rewrite H. reflexivity. Qed.

Lemma bind_output {B} ev (k : unit -> M B) st :
  io_fault W (tick st) = None ->
  bind (output W ev) k st = k tt (record ev st).
Proof. intros H. apply bind_returns. apply output_ok; assumption. Qed.

Lemma bind_print {B} s (k : unit -> M B) st :
  io_fault W (tick st) = None ->
  bind (print W s) k st = k tt (record (EWrite Stdout (s ++ LF)%string) st).
Proof. apply bind_output. Qed.

(** The compile completes: nothing is reported. *)
Lemma build_fonts_completes ufo_path st :
  run_from_ufos W (tick st) ufo_path = None ->
  build_fonts W ufo_path st = (Returns tt, record (ECompile ufo_path BUILD_FILE_TYPE) st).
Proof.
  intros H. unfold build_fonts, try_except_Exception, FontProject_run_from_ufos.
  rewrite H. reflexivity.
Qed.

(** The compile raises what [except Exception] does not catch. *)
Lemma build_fonts_escapes ufo_path st e :
  run_from_ufos W (tick st) ufo_path = Some e ->
  is_Exception e = false ->
  build_fonts W ufo_path st = (Raises e, record (ECompile ufo_path BUILD_FILE_TYPE) st).
Proof.
  intros H He. unfold build_fonts, try_except_Exception, FontProject_run_from_ufos.
  rewrite H, He. reflexivity.
Qed.

(** The compile raises an [Exception] and every write goes through. *)
Lemma build_fonts_reports ufo_path st e :
  run_from_ufos W (tick st) ufo_path = Some e ->
  is_Exception e = true ->
  no_io_fault W ->
  lock_held st = false ->
  build_fonts W ufo_path st
  = (Returns tt,
     {| log := log st ++ failure_report W ufo_path e;
        lock_held := false;
        tick := tick st + 9 |}).
Proof.
  intros H He Hio Hlock.
  unfold build_fonts, try_except_Exception, FontProject_run_from_ufos.
  rewrite H, He.
  unfold print, stdout_flush, print_exc.
  erewrite bind_returns
    by (unfold lock_acquire; cbn [record lock_held]; rewrite Hlock; reflexivity).
  rewrite !bind_output by apply Hio.
  unfold lock_release.
  cbn [record log lock_held tick]. do 2 f_equal.
  - unfold failure_report. rewrite <- !app_assoc. reflexivity.
  - lia.
Qed.

(** With ordinary failures and working output, a job always returns and
    leaves the lock free; its first event is the compile of its path, and
    it compiles nothing else. *)
Lemma build_fonts_returns ufo_path st :
  no_io_fault W -> ordinary_failures W -> lock_held st = false ->
  exists st',
    build_fonts W ufo_path st = (Returns tt, st')
    /\ lock_held st' = false
    /\ compiled (log st') = compiled (log st) ++ [ufo_path]
    /\ pools (log st') = pools (log st).
Proof.
  intros Hio Hord Hlock.
  destruct (run_from_ufos W (tick st) ufo_path) as [e|] eqn:Hrun.
  - eexists. split; [apply build_fonts_reports; eauto|].
    simpl. rewrite compiled_app, pools_app. simpl. rewrite app_nil_r. auto.
  - eexists. split; [apply build_fonts_completes; assumption|].
    simpl. rewrite compiled_app, pools_app. simpl. rewrite app_nil_r. auto.
Qed.

End BuildFonts.

(** ** Serving the jobs of a pool *)

Lemma remove_nth_perm {A} (l : list A) k x :
  nth_error l k = Some x -> Permutation l (x :: remove_nth k l).
Proof.
  revert k. induction l as [|y l IH]; intros [|k] H; simpl in *; try discriminate.
  - injection H as ->. apply Permutation_refl.
  - apply IH in H. eapply perm_trans; [apply perm_skip, H | apply perm_swap].
Qed.

Lemma remove_nth_length {A} (l : list A) k x :
  nth_error l k = Some x -> length l = S (length (remove_nth k l)).
Proof.
  revert k. induction l as [|y l IH]; intros [|k] H; simpl in *; try discriminate.
  - reflexivity.
  - f_equal. eapply IH; eassumption.
Qed.

Lemma pick_in_range {A} (l : list A) n i :
  length l = S n -> exists x, nth_error l (i mod length l) = Some x.
Proof.
  intros H.
  destruct (nth_error l (i mod length l)) as [x|] eqn:E; [eauto|].
  apply nth_error_None in E.
  assert (i mod length l < length l) by (apply Nat.mod_upper_bound; lia).
  lia.
Qed.

Lemma Permutation_concat_tasks {A} (l l' : list (list A)) :
  Permutation l l' -> Permutation (concat l) (concat l').
Proof.
  induction 1 as [|x l l' _ IH|x y l|l l' l'' _ IH1 _ IH2]; simpl.
  - apply Permutation_refl.
  - apply Permutation_app_head. exact IH.
  - rewrite !app_assoc. apply Permutation_app_tail. apply Permutation_app_comm.
  - eapply perm_trans; eassumption.
Qed.

Lemma get_tasks_concat {A} fuel size (it : list A) :
  1 <= size -> length it <= fuel -> concat (get_tasks fuel size it) = it.
Proof.
  intros Hsize. revert it. induction fuel as [|fuel IH]; intros it Hlen.
  - destruct it; [reflexivity | simpl in Hlen; lia].
  - destruct it as [|x it']; [reflexivity|].
    cbn [get_tasks concat]. rewrite IH.
    + apply firstn_skipn.
    + rewrite length_skipn. cbn [length] in *. lia.
Qed.

Lemma chunksize_pos n processes :
  1 <= n -> 1 <= processes -> 1 <= chunksize n processes.
Proof.
  intros Hn Hp. unfold chunksize.
  destruct (n mod (processes * 4) =? 0)%nat eqn:E; [|lia].
  apply Nat.eqb_eq in E.
  pose proof (Nat.div_mod_eq n (processes * 4)) as H.
  rewrite E in H.
  destruct (n / (processes * 4)); lia.
Qed.

Section Serve.

Variable W : world.
Hypothesis Hio : no_io_fault W.
Hypothesis Hord : ordinary_failures W.

(** The jobs of a task all return, in order. *)
Lemma task_returns task st :
  lock_held st = false ->
  exists st',
    for_each task (build_fonts W) st = (Returns tt, st')
    /\ lock_held st' = false
    /\ compiled (log st') = compiled (log st) ++ task
    /\ pools (log st') = pools (log st).
Proof.
  revert st. induction task as [|job task IH]; intros st Hlock.
  - exists st. simpl. rewrite app_nil_r. auto.
  - destruct (build_fonts_returns W job st Hio Hord Hlock)
      as [st1 [Hrun [Hlock1 [Hc1 Hp1]]]].
    destruct (IH st1 Hlock1) as [st2 [Hrest [Hlock2 [Hc2 Hp2]]]].
    exists st2. simpl. erewrite bind_returns by exact Hrun.
    split; [exact Hrest|]. split; [exact Hlock2|]. split; [|congruence].
    rewrite Hc2, Hc1, <- app_assoc. reflexivity.
Qed.

(** Every pending task is served, each once, whatever order the host picks
    and whichever compiles fail. *)
Lemma serve_returns n workers pending st :
  length pending = n -> 1 <= workers -> lock_held st = false ->
  exists st',
    serve W (build_fonts W) n workers pending None false st = (Returns tt, st')
    /\ lock_held st' = false
    /\ Permutation (compiled (log st')) (compiled (log st) ++ concat pending)
    /\ pools (log st') = pools (log st).
Proof.
  intros Hlen Hw. revert pending st Hlen.
  induction n as [|n IH]; intros pending st Hlen Hlock.
  - destruct pending; [|discriminate]. exists st. simpl.
    rewrite app_nil_r. auto.
  - destruct (pick_in_range pending n (pick W (tick st)) Hlen) as [task Htask].
    destruct (task_returns task st Hlock) as [st1 [Hrun [Hlock1 [Hc1 Hp1]]]].
    assert (Hlen' : length (remove_nth (pick W (tick st) mod length pending) pending) = n).
    { pose proof (remove_nth_length _ _ _ Htask). lia. }
    destruct (IH _ st1 Hlen' Hlock1) as [st2 [Hserve [Hlock2 [Hc2 Hp2]]]].
    exists st2. simpl. rewrite Htask.
    replace (workers =? 0)%nat with false by (symmetry; apply Nat.eqb_neq; lia).
    rewrite Hrun, Hserve.
    repeat split; try assumption.
    + eapply perm_trans; [exact Hc2|].
      rewrite Hc1, <- app_assoc. apply Permutation_app_head.
      change (task ++ concat (remove_nth (pick W (tick st) mod length pending) pending))
        with (concat (task :: remove_nth (pick W (tick st) mod length pending) pending)).
      apply Permutation_concat_tasks, Permutation_sym, remove_nth_perm, Htask.
    + congruence.
Qed.

(** [Pool.map] over jobs that all return: every job is run, each once. *)
Lemma pool_map_returns processes iterable st :
  1 <= processes -> iterable <> [] -> lock_held st = false ->
  exists st',
    pool_map W processes (build_fonts W) iterable st = (Returns tt, st')
    /\ lock_held st' = false
    /\ Permutation (compiled (log st')) (compiled (log st) ++ iterable)
    /\ pools (log st') = pools (log st).
Proof.
  intros Hp Hne Hlock. unfold pool_map.
  destruct (serve_returns
              (length (get_tasks (length iterable)
                         (chunksize (length iterable) processes) iterable))
              processes _ st eq_refl Hp Hlock)
    as [st' [Hserve [Hlock' [Hc Hpools]]]].
  exists st'. split; [exact Hserve|]. split; [exact Hlock'|]. split; [|exact Hpools].
  rewrite get_tasks_concat in Hc; [exact Hc | | lia].
  apply chunksize_pos; [|exact Hp].
  destruct iterable; [congruence | simpl; lia].
Qed.

End Serve.

(** ** The loop over the source paths *)

Lemma for_each_all {A} (l : list A) (body : A -> M unit) st :
  (forall y, In y l -> forall s, body y s = (Returns tt, s)) ->
  for_each l body st = (Returns tt, st).
Proof.
  revert st. induction l as [|x l IH]; intros st H; simpl; [reflexivity|].
  erewrite bind_returns by (apply H; left; reflexivity).
  apply IH. intros y Hy. apply H. right; assumption.
Qed.

Lemma for_each_skip {A} (pre : list A) x post (body : A -> M unit) st :
  (forall y, In y pre -> forall s, body y s = (Returns tt, s)) ->
  for_each (pre ++ x :: post) body st = bind (body x) (fun _ => for_each post body) st.
Proof.
  revert st. induction pre as [|y pre IH]; intros st H; simpl; [reflexivity|].
  erewrite bind_returns by (apply H; left; reflexivity).
  apply IH. intros z Hz. apply H. right; assumption.
Qed.

(** A list splits at its first element that fails a test. *)
Lemma first_failure {A} (f : A -> bool) (l : list A) x :
  In x l -> f x = false ->
  exists pre q post,
    l = pre ++ q :: post /\ forallb f pre = true /\ f q = false.
Proof.
  induction l as [|y l IH]; intros Hin Hx; [destruct Hin|].
  destruct (f y) eqn:Hy.
  - destruct Hin as [->|Hin]; [congruence|].
    destruct (IH Hin Hx) as [pre [q [post [-> [Hpre Hq]]]]].
    exists (y :: pre), q, post. simpl. rewrite Hy, Hpre. auto.
  - exists [], y, l. auto.
Qed.

(** ** The three blocks of [main] *)

Section MainFacts.

Variable W : world.

Lemma valid_path_inv p :
  valid_path W p = true ->
  (String.length p <? 5)%nat = false /\ (last4 p =? ".ufo") = true /\ isdir W p = true.
Proof.
  unfold valid_path. intros H.
  apply andb_prop in H as [H H3]. apply andb_prop in H as [H1 H2].
  repeat split; try assumption.
  apply Nat.ltb_ge. apply Nat.leb_le in H1. exact H1.
Qed.

(** No help, version or usage flag ends in [.ufo]. *)
Lemma ufo_not_flag a : (last4 a =? ".ufo") = true -> is_flag a = false.
Proof.
  intros H. unfold is_flag, in_tuple. simpl existsb.
  repeat match goal with
  | |- context [(a =? ?f)%string] =>
      let E := fresh "E" in
      destruct (a =? f)%string eqn:E;
      [apply String.eqb_eq in E; subst a; vm_compute in H; discriminate|]
  end.
  reflexivity.
Qed.

Lemma valid_not_flag a : valid_path W a = true -> is_flag a = false.
Proof. intros H. apply ufo_not_flag. apply valid_path_inv in H. tauto. Qed.

Lemma flag_handling_empty st : flag_handling W [] st = (Raises IndexError, st).
Proof. reflexivity. Qed.

Lemma flag_handling_pass a rest st :
  is_flag a = false -> flag_handling W (a :: rest) st = (Returns tt, st).
Proof.
  unfold is_flag. intros H.
  apply orb_false_elim in H as [H H3]. apply orb_false_elim in H as [H1 H2].
  unfold flag_handling.
  rewrite bind_assoc. change (getitem (a :: rest) 0) with (@ret string a). rewrite !bind_ret, H1.
  rewrite bind_assoc. rewrite !bind_ret, H2.
  rewrite bind_assoc. rewrite !bind_ret, H3.
  reflexivity.
Qed.

(** A flag prints its text and exits with status 0. *)
Lemma flag_handling_flag a rest st :
  is_flag a = true -> io_fault W (tick st) = None ->
  exists text,
    flag_handling W (a :: rest) st
    = (Raises (SystemExit 0), record (EWrite Stdout (text ++ LF)%string) st).
Proof.
  unfold is_flag. intros H Hio.
  unfold flag_handling.
  rewrite bind_assoc. change (getitem (a :: rest) 0) with (@ret string a). rewrite !bind_ret.
  destruct (in_tuple a ["-h"; "--help"]) eqn:H1.
  { exists HELP. rewrite bind_print by assumption. reflexivity. }
  rewrite bind_assoc. rewrite !bind_ret.
  destruct (in_tuple a ["-v"; "--version"]) eqn:H2.
  { exists VERSION. rewrite bind_print by assumption. reflexivity. }
  rewrite bind_assoc. rewrite !bind_ret.
  simpl in H. rewrite H.
  exists USAGE. rewrite bind_print by assumption. reflexivity.
Qed.

(** The flag handling returns only on a non-empty argument list, and it
    leaves no trace when it returns. *)
Lemma flag_handling_returns argv st st' :
  flag_handling W argv st = (Returns tt, st') -> argv <> [] /\ st' = st.
Proof.
  destruct argv as [|a rest]; [rewrite flag_handling_empty; discriminate|].
  intros H. split; [discriminate|].
  destruct (is_flag a) eqn:Hf.
  - exfalso. revert H. unfold is_flag in Hf. unfold flag_handling.
    rewrite bind_assoc. change (getitem (a :: rest) 0) with (@ret string a). rewrite !bind_ret.
    destruct (in_tuple a ["-h"; "--help"]) eqn:H1.
    { unfold bind, sys_exit, raise. destruct (print W HELP st) as [[[]|e|] s]; discriminate. }
    rewrite bind_assoc. rewrite !bind_ret.
    destruct (in_tuple a ["-v"; "--version"]) eqn:H2.
    { unfold bind, sys_exit, raise. destruct (print W VERSION st) as [[[]|e|] s]; discriminate. }
    rewrite bind_assoc. rewrite !bind_ret.
    simpl in Hf. rewrite Hf.
    unfold bind, sys_exit, raise. destruct (print W USAGE st) as [[[]|e|] s]; discriminate.
  - rewrite flag_handling_pass in H by assumption. congruence.
Qed.

(** Every path is valid: the command line error handling lets the run go on. *)
Lemma command_line_ok argv st :
  argv <> [] -> forallb (valid_path W) argv = true ->
  command_line_error_handling W argv st = (Returns tt, st).
Proof.
  intros Hne Hall. unfold command_line_error_handling.
  destruct argv as [|a rest]; [congruence|].
  cbn [length Nat.eqb]. rewrite bind_ret.
  apply for_each_all. intros y Hy s.
  rewrite forallb_forall in Hall. specialize (Hall y Hy).
  apply valid_path_inv in Hall as [H1 [H2 H3]].
  rewrite H1, H2, H3. reflexivity.
Qed.

(** Some path is not valid: the first one is reported on standard error
    and the run ends with status 1. *)
Lemma command_line_rejects pre q post st :
  forallb (valid_path W) pre = true -> valid_path W q = false ->
  io_fault W (tick st) = None ->
  command_line_error_handling W (pre ++ q :: post) st
  = (Raises (SystemExit 1), record (EWrite Stderr (path_diagnostic W q)) st).
Proof.
  intros Hpre Hq Hio. unfold command_line_error_handling.
  replace (length (pre ++ q :: post) =? 0)%nat with false
    by (symmetry; apply Nat.eqb_neq; rewrite length_app; simpl; lia).
  rewrite bind_ret.
  rewrite for_each_skip.
  2:{ intros y Hy s. rewrite forallb_forall in Hpre. specialize (Hpre y Hy).
      apply valid_path_inv in Hpre as [H1 [H2 H3]].
      rewrite H1, H2, H3. reflexivity. }
  unfold path_diagnostic, valid_path in *. unfold stderr_write.
  destruct (String.length q <? 5)%nat eqn:H1.
  { rewrite bind_assoc, bind_output by assumption. reflexivity. }
  destruct (last4 q =? ".ufo")%string eqn:H2; simpl negb; cbv iota.
  2:{ rewrite bind_assoc, bind_output by assumption. reflexivity. }
  apply Nat.ltb_ge, Nat.leb_le in H1. rewrite H1 in Hq. simpl in Hq.
  rewrite Hq. simpl negb. cbv iota.
  rewrite bind_assoc, bind_output by assumption. reflexivity.
Qed.

End MainFacts.

Section CompileBlock.

Variable W : world.
Hypothesis Hio : no_io_fault W.

(** One source path: four progress lines, then the job, called directly. *)
Lemma begin_compile_single processes p st :
  begin_compile W processes [p] st
  = bind (build_fonts W p) (fun _ => sys_exit 0)
      {| log := log st ++ single_progress;
         lock_held := lock_held st;
         tick := 4 + tick st |}.
Proof.
  unfold begin_compile.
  rewrite !bind_print by apply Hio.
  cbn [length Nat.eqb].
  rewrite !bind_print by apply Hio.
  change (getitem [p] 0) with (@ret string p). rewrite bind_ret.
  f_equal. unfold record, single_progress. cbn [log lock_held tick].
  rewrite <- !app_assoc. reflexivity.
Qed.

(** Several source paths: the progress lines, then one pool of
    [min(cpu_count(), len(source_path_list))] processes, then the jobs. *)
Lemma begin_compile_pool argv st :
  2 <= length argv -> 1 <= cpu_count W ->
  exists st1,
    begin_compile W PROCESSES argv st
    = bind (pool_map W (Nat.min (cpu_count W) (length argv)) (build_fonts W) argv)
        (fun _ => sys_exit 0) st1
    /\ lock_held st1 = lock_held st
    /\ log st1
       = log st ++ pool_progress W (length argv)
                ++ [EPool (Nat.min (cpu_count W) (length argv))].
Proof.
  intros Hlen Hcpu. unfold begin_compile.
  rewrite !bind_print by apply Hio.
  replace (length argv =? 1)%nat with false by (symmetry; apply Nat.eqb_neq; lia).
  cbn [PROCESSES Nat.eqb].
  rewrite bind_assoc, bind_print, bind_ret by apply Hio.
  unfold pool_progress.
  destruct (length argv <? cpu_count W)%nat eqn:Hlim.
  - apply Nat.ltb_lt in Hlim.
    rewrite bind_assoc, bind_print, bind_ret by apply Hio.
    rewrite !bind_print by apply Hio.
    unfold Pool.
    replace (length argv <? 1)%nat with false by (symmetry; apply Nat.ltb_ge; lia).
    rewrite bind_assoc. unfold bind at 1. unfold emit. rewrite bind_ret.
    replace (Nat.min (cpu_count W) (length argv)) with (length argv) by lia.
    eexists. split; [reflexivity|]. split; [reflexivity|].
    cbn [record log]. rewrite <- !app_assoc. reflexivity.
  - apply Nat.ltb_ge in Hlim.
    rewrite bind_ret.
    rewrite !bind_print by apply Hio.
    unfold Pool.
    replace (cpu_count W <? 1)%nat with false by (symmetry; apply Nat.ltb_ge; lia).
    rewrite bind_assoc. unfold bind at 1. unfold emit. rewrite bind_ret.
    replace (Nat.min (cpu_count W) (length argv)) with (cpu_count W) by lia.
    eexists. split; [reflexivity|]. split; [reflexivity|].
    cbn [record log]. rewrite <- !app_assoc. reflexivity.
Qed.

Lemma pool_progress_quiet n :
  compiled (pool_progress W n) = [] /\ pools (pool_progress W n) = [].
Proof. unfold pool_progress. destruct (n <? cpu_count W)%nat; split; reflexivity. Qed.

End CompileBlock.

(** ** [main] and the script as a whole *)

Section WholeRun.

Variable W : world.

Lemma main_empty st : main W [] st = (Raises IndexError, st).
Proof. reflexivity. Qed.

(** Valid source paths take [main] straight to the compile block. *)
Lemma main_of_valid argv st :
  argv <> [] -> forallb (valid_path W) argv = true ->
  main W argv st = begin_compile W PROCESSES argv st.
Proof.
  intros Hne Hall. unfold main.
  destruct argv as [|a rest]; [congruence|].
  assert (Ha : valid_path W a = true) by (simpl in Hall; apply andb_prop in Hall; tauto).
  erewrite bind_returns by (apply flag_handling_pass, (valid_not_flag W), Ha).
  cbv zeta.
  erewrite bind_returns by (apply command_line_ok; [discriminate | exact Hall]).
  reflexivity.
Qed.

(** A flag ends [main] with status 0. *)
Lemma main_of_flag a rest st :
  is_flag a = true -> io_fault W (tick st) = None ->
  exists text,
    main W (a :: rest) st
    = (Raises (SystemExit 0), record (EWrite Stdout (text ++ LF)%string) st).
Proof.
  intros Hf Hio.
  destruct (flag_handling_flag W a rest st Hf Hio) as [text H].
  exists text. unfold main. erewrite bind_raises by exact H. reflexivity.
Qed.

(** A path that is not valid ends [main] with status 1 and one line on
    standard error. *)
Lemma main_of_invalid a rest pre q post st :
  is_flag a = false -> a :: rest = pre ++ q :: post ->
  forallb (valid_path W) pre = true -> valid_path W q = false ->
  io_fault W (tick st) = None ->
  main W (a :: rest) st
  = (Raises (SystemExit 1), record (EWrite Stderr (path_diagnostic W q)) st).
Proof.
  intros Hf Hsplit Hpre Hq Hio. unfold main.
  erewrite bind_returns by (apply flag_handling_pass, Hf).
  cbv zeta. rewrite Hsplit.
  erewrite bind_raises by (apply command_line_rejects; assumption).
  reflexivity.
Qed.

(** With valid paths, working output and ordinary failures, [main] runs
    every job and ends with [sys.exit(0)]. *)
Lemma main_valid argv st :
  no_io_fault W -> ordinary_failures W -> 1 <= cpu_count W ->
  argv <> [] -> forallb (valid_path W) argv = true ->
  lock_held st = false ->
  exists st',
    main W argv st = (Raises (SystemExit 0), st')
    /\ Permutation (compiled (log st')) (compiled (log st) ++ argv)
    /\ lock_held st' = false.
Proof.
  intros Hio Hord Hcpu Hne Hall Hlock.
  rewrite main_of_valid by assumption.
  destruct argv as [|p [|p' rest]]; [congruence| |].
  - rewrite begin_compile_single by assumption.
    edestruct (build_fonts_returns W p) as [st' [Hrun [Hl [Hc _]]]];
      [exact Hio | exact Hord | | ].
    2:{ exists st'. erewrite bind_returns by exact Hrun.
        split; [reflexivity|]. split; [|exact Hl].
        rewrite Hc. cbn [log]. rewrite compiled_app. simpl.
        rewrite app_nil_r. apply Permutation_refl. }
    exact Hlock.
  - destruct (begin_compile_pool W Hio (p :: p' :: rest) st) as [st1 [Hrun [Hl1 Hlog1]]];
      [simpl; lia | exact Hcpu |].
    rewrite Hrun.
    edestruct (pool_map_returns W Hio Hord
                 (Nat.min (cpu_count W) (length (p :: p' :: rest))) (p :: p' :: rest) st1)
      as [st2 [Hserve [Hl2 [Hc2 _]]]]; [simpl; lia | discriminate | congruence |].
    exists st2. erewrite bind_returns by exact Hserve.
    split; [reflexivity|]. split; [|exact Hl2].
    eapply perm_trans; [exact Hc2|].
    rewrite Hlog1, !compiled_app.
    destruct (pool_progress_quiet W (length (p :: p' :: rest))) as [-> _].
    simpl. rewrite app_nil_r. apply Permutation_refl.
Qed.

(** What the interpreter adds to the log of [main]. *)
Lemma script_log argv :
  exists extra,
    log (snd (script W argv)) = log (snd (main W argv initial_state)) ++ extra
    /\ Forall (fun ev => exists e, ev = ETraceback Stderr e) extra.
Proof.
  unfold script, report_uncaught.
  destruct (main W argv initial_state) as [[[]|[cls msg|code]|] st]; simpl;
    try (exists []; rewrite app_nil_r; auto; fail).
  destruct (io_fault W (tick st)); simpl.
  - exists []. rewrite app_nil_r. auto.
  - eexists. split; [reflexivity|]. constructor; eauto.
Qed.

Lemma script_of_exit argv code st :
  main W argv initial_state = (Raises (SystemExit code), st) ->
  script W argv = (Some (code mod 256)%Z, st).
Proof. intros H. unfold script. rewrite H. reflexivity. Qed.

Lemma script_of_exit_0 argv st :
  main W argv initial_state = (Raises (SystemExit 0), st) ->
  script W argv = (Some 0%Z, st).
Proof. apply script_of_exit. Qed.

Lemma script_of_exit_1 argv st :
  main W argv initial_state = (Raises (SystemExit 1), st) ->
  script W argv = (Some 1%Z, st).
Proof. apply script_of_exit. Qed.

(** The compile block adds only progress lines, pool creations and job
    events, whatever the host does. *)
Lemma only_begin_compile processes argv :
  only compile_event (begin_compile W processes argv).
Proof.
  assert (Hjob : forall p, only compile_event (build_fonts W p)).
  { intros p. eapply only_weaken; [|apply only_build_fonts].
    intros [] H; try exact H; exact I. }
  unfold begin_compile, print.
  do 2 (apply only_bind; [apply only_output; exact I | intros _]).
  destruct (length argv =? 1)%nat.
  - repeat (first [apply Hjob | only_step]); exact I.
  - apply only_bind.
    { destruct (processes =? 0)%nat; repeat only_step; exact I. }
    intros n. apply only_bind.
    { destruct (length argv <? n)%nat; repeat only_step; exact I. }
    intros n'.
    do 3 (apply only_bind; [apply only_output; exact I | intros _]).
    apply only_bind; [apply only_Pool; exact I | intros q].
    apply only_bind; [|intros; apply only_sys_exit].
    apply only_pool_map. intros job _. apply Hjob.
Qed.

End WholeRun.

(** * The exit status *)

Lemma forallb_false {A} (f : A -> bool) (l : list A) :
  forallb f l = false -> exists x, In x l /\ f x = false.
Proof.
  induction l as [|y l IH]; simpl; [discriminate|].
  intros H. apply andb_false_iff in H as [H|H].
  - exists y. auto.
  - destruct (IH H) as [x [Hin Hx]]. exists x. auto.
Qed.

(** C1, as the code has it: the exit status does not depend on whether
    jobs succeed.  With working output and compile failures that are
    ordinary exceptions, the status is 0 when the first argument is a
    help, version or usage flag or when every source path passes the
    command line checks -- however many jobs then fail, in the single-job
    path and in the pool alike -- and it is 1 exactly for the precondition
    errors: an empty argument list or a path that fails a check. *)
Theorem exit_status_ignores_job_failures (W : world) (argv : list string) :
  no_io_fault W -> ordinary_failures W -> 1 <= cpu_count W ->
  fst (script W argv) = Some (expected_status W argv).
Proof.
  intros Hio Hord Hcpu.
  destruct argv as [|a rest]; [reflexivity|].
  unfold expected_status.
  destruct (is_flag a) eqn:Hf.
  - destruct (main_of_flag W a rest initial_state Hf (Hio _)) as [text H].
    rewrite (script_of_exit W _ _ _ H). reflexivity.
  - destruct (forallb (valid_path W) (a :: rest)) eqn:Hall.
    + destruct (main_valid W (a :: rest) initial_state Hio Hord Hcpu)
        as [st' [H _]]; [discriminate | exact Hall | reflexivity |].
      rewrite (script_of_exit W _ _ _ H). reflexivity.
    + destruct (forallb_false _ _ Hall) as [x [Hin Hx]].
      destruct (first_failure _ _ _ Hin Hx) as [pre [q [post [Hsplit [Hpre Hq]]]]].
      rewrite (script_of_exit W _ _ _
                 (main_of_invalid W a rest pre q post initial_state
                    Hf Hsplit Hpre Hq (Hio _))).
      reflexivity.
Qed.

(** The theorem at [a.ufo] and [b.ufo] where the compile of [b.ufo] fails:
    status 0. *)
Lemma exit_status_ignores_job_failures_witness :
  fst (script failing_host ["a.ufo"; "b.ufo"]) = Some 0%Z.
Proof.
  apply (exit_status_ignores_job_failures failing_host ["a.ufo"; "b.ufo"]).
  - intros n. reflexivity.
  - intros n p e H. simpl in H.
    destruct (p =? "b.ufo")%string; [injection H as <-; reflexivity | discriminate H].
  - simpl. lia.
Defined.

(** C1 fails as stated: the job of the single-job path fails, and so does
    one of two jobs of a pool, and the exit status is 0 both times. *)
Lemma exit_status_zero_despite_failed_job :
  script failing_host ["b.ufo"]
  = (Some 0%Z,
     {| log := single_progress ++ failure_report failing_host "b.ufo" bad_glyph;
        lock_held := false;
        tick := 13 |})
  /\ fst (script failing_host ["a.ufo"; "b.ufo"]) = Some 0%Z
  /\ In (ETraceback Stderr bad_glyph)
        (log (snd (script failing_host ["a.ufo"; "b.ufo"]))).
Proof.
  split; [vm_compute; reflexivity|].
  split; [vm_compute; reflexivity|].
  vm_compute. auto 20.
Qed.

(** * The job runner *)

(** C2, as the code has it: a failure of the compiler that is an instance
    of [Exception] is caught by [build_fonts]; when the writes of its
    report go through, the report -- not empty -- is written at once,
    inside the call and under the lock, and [build_fonts] returns to its
    caller.  It returns [None], as it does after a compile that completed:
    no outcome value is produced. *)
Theorem build_fonts_catches_exceptions
  (W : world) (ufo_path : string) (st : state) (e : exn) :
  run_from_ufos W (tick st) ufo_path = Some e ->
  is_Exception e = true ->
  no_io_fault W ->
  lock_held st = false ->
  exists st',
    build_fonts W ufo_path st = (Returns tt, st')
    /\ log st' = log st ++ failure_report W ufo_path e
    /\ written Stdout (failure_report W ufo_path e) <> ""%string
    /\ lock_held st' = false.
Proof.
  intros Hrun He Hio Hlock.
  eexists. split; [apply (build_fonts_reports W ufo_path st e); assumption|].
  cbn [log lock_held]. repeat split. discriminate.
Qed.

Lemma build_fonts_catches_exceptions_witness :
  exists st',
    build_fonts failing_host "b.ufo" initial_state = (Returns tt, st')
    /\ log st' = log initial_state ++ failure_report failing_host "b.ufo" bad_glyph
    /\ written Stdout (failure_report failing_host "b.ufo" bad_glyph) <> ""%string
    /\ lock_held st' = false.
Proof.
  apply (build_fonts_catches_exceptions failing_host "b.ufo" initial_state bad_glyph).
  - reflexivity.
  - reflexivity.
  - intros n. reflexivity.
  - reflexivity.
Defined.

(** C2 fails as stated, in three ways.  A failure that is not an
    [Exception] (here the compiler leaves through [sys.exit(3)]) passes
    [except Exception]: it leaves [build_fonts], and nothing is reported.
    A write of the report that raises leaves [build_fonts] as well.  And
    where the failure is caught, [build_fonts] returns what it returns
    after a compile that completed. *)
Lemma build_fonts_lets_failures_through :
  build_fonts exiting_host "b.ufo" initial_state
  = (Raises (SystemExit 3),
     {| log := [ECompile "b.ufo" BUILD_FILE_TYPE]; lock_held := false; tick := 1 |})
  /\ fst (build_fonts broken_pipe_host "b.ufo" initial_state) = Raises broken_pipe
  /\ fst (build_fonts failing_host "b.ufo" initial_state)
     = fst (build_fonts quiet_host "b.ufo" initial_state).
Proof. repeat split; reflexivity. Qed.

(** * The lock of the reporter *)

(** C3, as the code has it: when the writes of a report go through, the
    lock taken before the first write is released after the last one, and
    it is free when [build_fonts] returns. *)
Theorem lock_released_after_report
  (W : world) (ufo_path : string) (st : state) (e : exn) :
  run_from_ufos W (tick st) ufo_path = Some e ->
  is_Exception e = true ->
  no_io_fault W ->
  lock_held st = false ->
  lock_held (snd (build_fonts W ufo_path st)) = false
  /\ exists writes,
       log (snd (build_fonts W ufo_path st))
       = log st ++ [ECompile ufo_path BUILD_FILE_TYPE; EAcquire] ++ writes ++ [ERelease]
       /\ ~ In EAcquire writes /\ ~ In ERelease writes.
Proof.
  intros Hrun He Hio Hlock.
  rewrite (build_fonts_reports W ufo_path st e) by assumption.
  cbn [snd log lock_held]. split; [reflexivity|].
  eexists [_; _; _; _; _; _]. split; [reflexivity|].
  split; intros H; simpl in H; intuition discriminate.
Qed.

Lemma lock_released_after_report_witness :
  lock_held (snd (build_fonts failing_host "b.ufo" initial_state)) = false
  /\ exists writes,
       log (snd (build_fonts failing_host "b.ufo" initial_state))
       = log initial_state
         ++ [ECompile "b.ufo" BUILD_FILE_TYPE; EAcquire] ++ writes ++ [ERelease]
       /\ ~ In EAcquire writes /\ ~ In ERelease writes.
Proof.
  apply (lock_released_after_report failing_host "b.ufo" initial_state bad_glyph).
  - reflexivity.
  - reflexivity.
  - intros n. reflexivity.
  - reflexivity.
Defined.

(** C3 fails as stated: the first write of the report raises, the
    exception leaves [build_fonts], and the lock taken before the write is
    still held. *)
Lemma lock_held_after_failed_write :
  build_fonts broken_pipe_host "b.ufo" initial_state
  = (Raises broken_pipe,
     {| log := [ECompile "b.ufo" BUILD_FILE_TYPE; EAcquire];
        lock_held := true;
        tick := 3 |}).
Proof. reflexivity. Qed.

(** * The empty argument list *)

(** C4: on an empty argument list no job is run and no pool is created;
    the run ends before the compile block with an error on standard error
    (the traceback of the [IndexError] that [argv[0]] raises, when standard
    error takes it) and with exit status 1. *)
Theorem empty_argument_list_exits_1 (W : world) :
  io_fault W 0 = None ->
  script W []
  = (Some 1%Z,
     {| log := [ETraceback Stderr IndexError]; lock_held := false; tick := 1 |})
  /\ compiled (log (snd (script W []))) = []
  /\ pools (log (snd (script W []))) = [].
Proof.
  intros H.
  assert (E : script W []
              = (Some 1%Z,
                 {| log := [ETraceback Stderr IndexError];
                    lock_held := false; tick := 1 |})).
  { unfold script. rewrite main_empty. unfold IndexError, report_uncaught.
    cbn [tick initial_state]. rewrite H. reflexivity. }
  rewrite E. repeat split.
Qed.

Lemma empty_argument_list_exits_1_witness :
  script quiet_host []
  = (Some 1%Z,
     {| log := [ETraceback Stderr IndexError]; lock_held := false; tick := 1 |})
  /\ compiled (log (snd (script quiet_host []))) = []
  /\ pools (log (snd (script quiet_host []))) = [].
Proof.
  apply (empty_argument_list_exits_1 quiet_host). reflexivity.
Defined.

(** * The worker count *)

Lemma snd_bind_sys_exit {A B} (m : M A) (code : Z) st :
  snd (bind m (fun _ => @sys_exit B code) st) = snd (m st).
Proof. unfold bind. destruct (m st) as [[a|e|] st']; reflexivity. Qed.

Lemma traceback_quiet extra :
  Forall (fun ev => exists e, ev = ETraceback Stderr e) extra ->
  compiled extra = [] /\ pools extra = [].
Proof.
  induction 1 as [|ev l [e ->] _ IH]; simpl; auto.
Qed.

Lemma job_event_no_pool l : Forall job_event l -> pools l = [].
Proof.
  intros H. apply pools_none. eapply Forall_impl; [|exact H].
  intros ev Hev n ->. exact Hev.
Qed.

(** C5: with [PROCESSES = 0], several valid source paths and working
    output, the run creates exactly one pool, its size is
    [min(cpu_count(), len(source_path_list))], and that size is at least 1
    (the host reports at least one core).  No second pool is created,
    whatever the jobs do. *)
Theorem pool_size_is_min_of_cores_and_jobs (W : world) (argv : list string) :
  forallb (valid_path W) argv = true ->
  2 <= length argv ->
  no_io_fault W ->
  1 <= cpu_count W ->
  PROCESSES = 0
  /\ pools (log (snd (script W argv))) = [Nat.min (cpu_count W) (length argv)]
  /\ 1 <= Nat.min (cpu_count W) (length argv).
Proof.
  intros Hall Hlen Hio Hcpu.
  split; [reflexivity|]. split; [|lia].
  destruct (script_log W argv) as [extra [-> Hextra]].
  assert (Hne : argv <> []) by (destruct argv; [simpl in Hlen; lia | discriminate]).
  rewrite main_of_valid by assumption.
  destruct (begin_compile_pool W Hio argv initial_state Hlen Hcpu) as [st1 [-> [_ Hlog]]].
  rewrite snd_bind_sys_exit.
  destruct (only_pool_map W job_event (Nat.min (cpu_count W) (length argv))
              (build_fonts W) argv (fun job _ => only_build_fonts W job) st1)
    as [new [Hnew Hjob]].
  rewrite Hnew, Hlog. cbn [log initial_state].
  rewrite !pools_app.
  destruct (pool_progress_quiet W (length argv)) as [_ ->].
  rewrite (job_event_no_pool _ Hjob).
  destruct (traceback_quiet _ Hextra) as [_ ->].
  reflexivity.
Qed.

Lemma pool_size_is_min_of_cores_and_jobs_witness :
  PROCESSES = 0
  /\ pools (log (snd (script failing_host ["a.ufo"; "b.ufo"; "c.ufo"])))
     = [Nat.min (cpu_count failing_host) (length ["a.ufo"; "b.ufo"; "c.ufo"])]
  /\ 1 <= Nat.min (cpu_count failing_host) (length ["a.ufo"; "b.ufo"; "c.ufo"]).
Proof.
  apply (pool_size_is_min_of_cores_and_jobs failing_host ["a.ufo"; "b.ufo"; "c.ufo"]).
  - reflexivity.
  - simpl. lia.
  - intros n. reflexivity.
  - simpl. lia.
Defined.

(** * Every job is attempted *)




(** * The single-job path *)

Lemma handler_event_quiet l :
  Forall handler_event l -> compiled l = [] /\ pools l = [].
Proof.
  intros H. split.
  - apply compiled_none. eapply Forall_impl; [|exact H]. intros ev Hev p o ->. exact Hev.
  - apply pools_none. eapply Forall_impl; [|exact H]. intros ev Hev n ->. exact Hev.
Qed.

(** Whatever the host does, a job calls the compiler once, on its own
    path, and then at most reports. *)
Lemma build_fonts_log (W : world) ufo_path st :
  exists rest,
    log (snd (build_fonts W ufo_path st))
    = log st ++ ECompile ufo_path BUILD_FILE_TYPE :: rest
    /\ Forall handler_event rest.
Proof.
  unfold build_fonts, try_except_Exception, FontProject_run_from_ufos.
  destruct (run_from_ufos W (tick st) ufo_path) as [e|].
  2:{ exists []. split; [reflexivity | constructor]. }
  destruct (is_Exception e).
  2:{ exists []. split; [reflexivity | constructor]. }
  lazymatch goal with
  | |- context [snd (?m (record ?ev st))] =>
      assert (Hm : only handler_event m)
        by (unfold print, stdout_flush, print_exc; repeat only_step; exact I);
      destruct (Hm (record ev st)) as [new [E F]]
  end.
  exists new. rewrite E. cbn [record log]. rewrite <- app_assoc. auto.
Qed.

(** C7, as the code has it: for one valid source path and working output,
    [main] prints its four progress lines and then calls [build_fonts]
    itself, on that path: the rest of the run is that call followed by
    [sys.exit(0)].  The compiler is called exactly once, and no pool is
    created.  When the compile completes or fails with an [Exception],
    the call returns once to [main] -- with [None], and after a failure
    with its report written and the lock free -- and the run ends with
    status 0. *)
Theorem single_job_runs_without_pool (W : world) (p : string) :
  no_io_fault W ->
  valid_path W p = true ->
  main W [p] initial_state
  = bind (build_fonts W p) (fun _ => sys_exit 0) single_job_state
  /\ compiled (log (snd (script W [p]))) = [p]
  /\ pools (log (snd (script W [p]))) = []
  /\ ((forall e, run_from_ufos W 4 p = Some e -> is_Exception e = true) ->
      exists st',
        build_fonts W p single_job_state = (Returns tt, st')
        /\ log st'
           = single_progress
             ++ match run_from_ufos W 4 p with
                | None => [ECompile p BUILD_FILE_TYPE]
                | Some e => failure_report W p e
                end
        /\ lock_held st' = false
        /\ script W [p] = (Some 0%Z, st')).
Proof.
  intros Hio Hp.
  assert (E : main W [p] initial_state
              = bind (build_fonts W p) (fun _ => sys_exit 0) single_job_state).
  { rewrite main_of_valid by (try discriminate; simpl; rewrite Hp; reflexivity).
    rewrite begin_compile_single by assumption. reflexivity. }
  split; [exact E|].
  assert (Hlog : compiled (log (snd (script W [p]))) = [p]
                 /\ pools (log (snd (script W [p]))) = []).
  { destruct (script_log W [p]) as [extra [-> Hextra]].
    rewrite E, snd_bind_sys_exit.
    destruct (build_fonts_log W p single_job_state) as [rest [-> Hrest]].
    cbn [log single_job_state]. rewrite !compiled_app, !pools_app. simpl.
    destruct (handler_event_quiet _ Hrest) as [-> ->].
    destruct (traceback_quiet _ Hextra) as [-> ->].
    split; reflexivity. }
  destruct Hlog as [Hc Hpools].
  split; [exact Hc|]. split; [exact Hpools|].
  intros Hord.
  change 4 with (tick single_job_state) in *.
  destruct (run_from_ufos W (tick single_job_state) p) as [e|] eqn:Hrun.
  - eexists. split.
    { apply (build_fonts_reports W p single_job_state e Hrun (Hord e eq_refl) Hio eq_refl). }
    cbn [log lock_held single_job_state]. repeat split.
    apply script_of_exit_0. rewrite E.
    erewrite bind_returns
      by (apply (build_fonts_reports W p single_job_state e Hrun (Hord e eq_refl) Hio eq_refl)).
    reflexivity.
  - eexists. split.
    { apply (build_fonts_completes W p single_job_state Hrun). }
    cbn [record log lock_held single_job_state]. repeat split.
    apply script_of_exit_0. rewrite E.
    erewrite bind_returns by (apply (build_fonts_completes W p single_job_state Hrun)).
    reflexivity.
Qed.

Lemma single_job_runs_without_pool_witness :
  main failing_host ["b.ufo"] initial_state
  = bind (build_fonts failing_host "b.ufo") (fun _ => sys_exit 0) single_job_state
  /\ compiled (log (snd (script failing_host ["b.ufo"]))) = ["b.ufo"]%string
  /\ pools (log (snd (script failing_host ["b.ufo"]))) = []
  /\ exists st',
       build_fonts failing_host "b.ufo" single_job_state = (Returns tt, st')
       /\ log st' = single_progress ++ failure_report failing_host "b.ufo" bad_glyph
       /\ lock_held st' = false
       /\ script failing_host ["b.ufo"] = (Some 0%Z, st').
Proof.
  destruct (single_job_runs_without_pool failing_host "b.ufo") as [H1 [H2 [H3 H4]]].
  - intros n. reflexivity.
  - reflexivity.
  - split; [exact H1|]. split; [exact H2|]. split; [exact H3|].
    apply H4. intros e H. simpl in H. injection H as <-. reflexivity.
Defined.

(** C7 fails as stated: where the compile of the single job leaves
    through [sys.exit(3)], the call of [build_fonts] does not return: the
    job produces no outcome, and the process ends inside the job with
    status 3. *)
Lemma single_job_without_outcome :
  build_fonts exiting_host "b.ufo" single_job_state
  = (Raises (SystemExit 3),
     {| log := single_progress ++ [ECompile "b.ufo" BUILD_FILE_TYPE];
        lock_held := false;
        tick := 5 |})
  /\ script exiting_host ["b.ufo"]
     = (Some 3%Z,
        {| log := single_progress ++ [ECompile "b.ufo" BUILD_FILE_TYPE];
           lock_held := false;
           tick := 5 |}).
Proof. split; reflexivity. Qed.

(** * The streams *)

Lemma compile_event_discipline ev : compile_event ev -> report_discipline ev.
Proof.
  destruct ev as [[] ?|[]|[] ?| | | |]; simpl; intros H; try reflexivity; try exact I;
    destruct H.
Qed.

(** C8, as the code has it: the report of a failing job is written to
    standard output (a blank line, the [[ERROR]] line that names the path,
    and [str(e)]), and only its traceback goes to standard error; all
    progress lines are written to standard output.  In a run whose source
    paths are valid every write and flush is on standard output and every
    traceback on standard error. *)
Theorem job_reports_go_to_stdout (W : world) :
  (forall ufo_path st e,
      run_from_ufos W (tick st) ufo_path = Some e ->
      is_Exception e = true ->
      no_io_fault W ->
      lock_held st = false ->
      log (snd (build_fonts W ufo_path st)) = log st ++ failure_report W ufo_path e
      /\ written Stderr (failure_report W ufo_path e) = ""%string)
  /\ (forall argv,
        argv <> [] -> forallb (valid_path W) argv = true ->
        Forall report_discipline (log (snd (script W argv)))).
Proof.
  split.
  - intros ufo_path st e Hrun He Hio Hlock.
    rewrite (build_fonts_reports W ufo_path st e) by assumption.
    split; reflexivity.
  - intros argv Hne Hall.
    destruct (script_log W argv) as [extra [-> Hextra]].
    rewrite main_of_valid by assumption.
    destruct (only_begin_compile W PROCESSES argv initial_state) as [new [-> Hnew]].
    cbn [log initial_state app]. apply Forall_app. split.
    + eapply Forall_impl; [|exact Hnew]. exact compile_event_discipline.
    + eapply Forall_impl; [|exact Hextra]. intros ev [e ->]. reflexivity.
Qed.

Lemma job_reports_go_to_stdout_witness :
  (log (snd (build_fonts failing_host "b.ufo" initial_state))
   = log initial_state ++ failure_report failing_host "b.ufo" bad_glyph
   /\ written Stderr (failure_report failing_host "b.ufo" bad_glyph) = ""%string)
  /\ Forall report_discipline (log (snd (script failing_host ["a.ufo"; "b.ufo"]))).
Proof.
  split.
  - apply (proj1 (job_reports_go_to_stdout failing_host) "b.ufo" initial_state bad_glyph).
    + reflexivity.
    + reflexivity.
    + intros n. reflexivity.
    + reflexivity.
  - apply (proj2 (job_reports_go_to_stdout failing_host) ["a.ufo"; "b.ufo"]).
    + discriminate.
    + reflexivity.
Defined.

(** C8 fails as stated: the job of [b.ufo] fails, its [[ERROR]] line and
    the message of the exception are written to standard output, and no
    line of the report is written to standard error (the traceback alone
    goes there). *)
Lemma job_error_text_on_stdout :
  In (EWrite Stdout
        (("[ERROR] The fontmake compile for " ++ "b.ufo"
          ++ " failed with the following error" ++ ":" ++ LF) ++ LF)%string)
     (log (snd (script failing_host ["b.ufo"])))
  /\ In (EWrite Stdout ("bad glyph" ++ LF)%string)
        (log (snd (script failing_host ["b.ufo"])))
  /\ written Stderr (log (snd (script failing_host ["b.ufo"]))) = ""%string.
Proof.
  split; [vm_compute; auto 20|].
  split; [vm_compute; auto 20|].
  vm_compute. reflexivity.
Qed.

(** * Paths that fail the command line checks *)

(** C9: when the run is not a request for the help, version or usage text
    and some source path is malformed (fewer than 5 characters, or not
    ending in [.ufo]) or is not an existing directory, the first such path
    is reported on standard error (standard error taking the write), the
    run ends with exit status 1, and this is all the run does: no
    progress line, no pool, no job. *)
Theorem invalid_path_aborts_the_run (W : world) (argv : list string) (p : string) :
  In p argv ->
  valid_path W p = false ->
  (forall a, hd_error argv = Some a -> is_flag a = false) ->
  io_fault W 0 = None ->
  exists q,
    In q argv /\ valid_path W q = false
    /\ script W argv
       = (Some 1%Z,
          {| log := [EWrite Stderr (path_diagnostic W q)];
             lock_held := false;
             tick := 1 |})
    /\ compiled (log (snd (script W argv))) = []
    /\ pools (log (snd (script W argv))) = [].
Proof.
  intros Hin Hp Hflag Hio.
  destruct argv as [|a rest]; [destruct Hin|].
  destruct (first_failure _ _ _ Hin Hp) as [pre [q [post [Hsplit [Hpre Hq]]]]].
  exists q.
  assert (E : script W (a :: rest)
              = (Some 1%Z,
                 {| log := [EWrite Stderr (path_diagnostic W q)];
                    lock_held := false; tick := 1 |})).
  { apply script_of_exit_1.
    rewrite (main_of_invalid W a rest pre q post initial_state
               (Hflag a eq_refl) Hsplit Hpre Hq Hio).
    reflexivity. }
  rewrite E. repeat split; try assumption.
  rewrite Hsplit. apply in_or_app. right. left. reflexivity.
Qed.

Lemma invalid_path_aborts_the_run_witness :
  exists q,
    In q ["a.ufo"; "b.uf"; "c"] /\ valid_path quiet_host q = false
    /\ script quiet_host ["a.ufo"; "b.uf"; "c"]
       = (Some 1%Z,
          {| log := [EWrite Stderr (path_diagnostic quiet_host q)];
             lock_held := false;
             tick := 1 |})
    /\ compiled (log (snd (script quiet_host ["a.ufo"; "b.uf"; "c"]))) = []
    /\ pools (log (snd (script quiet_host ["a.ufo"; "b.uf"; "c"]))) = [].
Proof.
  apply (invalid_path_aborts_the_run quiet_host ["a.ufo"; "b.uf"; "c"] "c").
  - simpl. auto.
  - reflexivity.
  - intros a H. injection H as <-. reflexivity.
  - reflexivity.
Defined.

(** * The branch for an empty path list *)

Section Unreachable.

Variable W : world.

Lemma only_flag_handling argv : only (not_please_include W) (flag_handling W argv).
Proof.
  unfold flag_handling, print.
  repeat first
    [ only_step
    | match goal with |- only _ (if ?c then _ else _) => destruct c end
    | discriminate ].
Qed.

Lemma only_command_line a rest :
  only (not_please_include W) (command_line_error_handling W (a :: rest)).
Proof.
  unfold command_line_error_handling, stderr_write.
  cbn [length Nat.eqb].
  apply only_bind; [apply only_ret | intros _].
  apply only_for_each. intros p.
  repeat first
    [ only_step
    | match goal with |- only _ (if ?c then _ else _) => destruct c end ];
    intros H; injection H as H; unfold please_include in H; simpl in H;
    discriminate H.
Qed.

Lemma only_main a rest : only (not_please_include W) (main W (a :: rest)).
Proof.
  unfold main.
  apply only_bind; [apply only_flag_handling | intros _]. cbv zeta.
  apply only_bind; [apply only_command_line | intros _].
  eapply only_weaken; [|apply only_begin_compile].
  intros ev Hev ->. exact Hev.
Qed.

End Unreachable.

(** C10: the branch of [main] for an empty path list cannot be reached.
    On an empty argument list [argv[0]] raises [IndexError] before anything
    else happens; whenever the flag handling returns, the list is not
    empty, so the test [len(source_path_list) == 0] that follows it is
    false; and in no run, whatever the arguments and whatever the host
    does, is the message of that branch written. *)
Theorem empty_list_branch_unreachable (W : world) :
  (forall st, main W [] st = (Raises IndexError, st))
  /\ (forall argv st st',
        flag_handling W argv st = (Returns tt, st') ->
        (length argv =? 0)%nat = false)
  /\ (forall argv,
        ~ In (EWrite Stderr (please_include W)) (log (snd (script W argv)))).
Proof.
  split; [intros st; reflexivity|]. split.
  - intros argv st st' H. apply flag_handling_returns in H as [Hne _].
    destruct argv; [congruence | reflexivity].
  - intros argv Hin.
    destruct (script_log W argv) as [extra [E Hextra]].
    rewrite E in Hin. apply in_app_or in Hin as [Hin|Hin].
    + destruct argv as [|a rest]; [rewrite main_empty in Hin; destruct Hin|].
      destruct (only_main W a rest initial_state) as [new [E' Hnew]].
      rewrite E' in Hin. simpl in Hin.
      rewrite Forall_forall in Hnew. apply (Hnew _ Hin). reflexivity.
    + rewrite Forall_forall in Hextra.
      destruct (Hextra _ Hin) as [e He]. discriminate He.
Qed.

Lemma empty_list_branch_unreachable_witness :
  (length ["a.ufo"] =? 0)%nat = false
  /\ main quiet_host [] initial_state = (Raises IndexError, initial_state).
Proof.
  split.
  - apply (proj1 (proj2 (empty_list_branch_unreachable quiet_host))
             ["a.ufo"] initial_state initial_state).
    reflexivity.
  - apply (proj1 (empty_list_branch_unreachable quiet_host)).
Defined.

(** * Further properties of the script *)

(** ** The extension test *)

Lemma string_length_append (a b : string) :
  String.length (a ++ b)%string = String.length a + String.length b.
Proof. induction a as [|c a IH]; simpl; [reflexivity | rewrite IH; reflexivity]. Qed.

Lemma substring_all (s : string) : substring 0 (String.length s) s = s.
Proof. induction s as [|c s IH]; simpl; [reflexivity | rewrite IH; reflexivity]. Qed.

Lemma substring_skip (a b : string) m :
  substring (String.length a) m (a ++ b)%string = substring 0 m b.
Proof. induction a as [|c a IH]; simpl; [reflexivity | exact IH]. Qed.

Lemma substring_prefix_length (s : string) m :
  String.length (substring 0 m s) <= String.length s.
Proof.
  revert m. induction s as [|c s IH]; intros [|m]; simpl; try lia.
  specialize (IH m). lia.
Qed.

Lemma substring_split (s : string) n :
  n <= String.length s ->
  s = (substring 0 n s ++ substring n (String.length s - n) s)%string
  /\ String.length (substring 0 n s) = n.
Proof.
  revert n. induction s as [|c s IH]; intros [|n] H; simpl in *.
  - auto.
  - lia.
  - rewrite substring_all. auto.
  - destruct (IH n) as [E L]; [lia|]. rewrite L. rewrite <- E. auto.
Qed.

(** [s[-4:] == ".ufo"] holds exactly of the strings that end in [.ufo]. *)
Lemma last4_ufo (s : string) :
  (last4 s =? ".ufo") = true <-> exists stem, s = (stem ++ ".ufo")%string.
Proof.
  unfold last4. rewrite String.eqb_eq. split.
  - intros H.
    assert (Hlen : 4 <= String.length s).
    { destruct (le_lt_dec 4 (String.length s)) as [|Hlt]; [assumption|].
      replace (String.length s - 4) with 0 in H by lia.
      pose proof (substring_prefix_length s 4) as Hp. rewrite H in Hp.
      simpl in Hp. lia. }
    destruct (substring_split s (String.length s - 4)) as [E _]; [lia|].
    replace (String.length s - (String.length s - 4)) with 4 in E by lia.
    rewrite H in E. eauto.
  - intros [stem ->]. rewrite string_length_append. simpl String.length.
    replace (String.length stem + 4 - 4) with (String.length stem) by lia.
    rewrite substring_skip. reflexivity.
Qed.

(** X1: a source path passes the three tests of the command line error
    handling exactly when it is a non-empty stem followed by [.ufo] and
    names an existing directory. *)
Theorem valid_path_is_stem_dot_ufo (W : world) (p : string) :
  valid_path W p = true
  <-> (exists stem, stem <> ""%string /\ p = (stem ++ ".ufo")%string)
      /\ isdir W p = true.
Proof.
  unfold valid_path. rewrite !andb_true_iff, Nat.leb_le, last4_ufo. split.
  - intros [[Hlen [stem ->]] Hdir]. split; [|assumption].
    exists stem. split; [|reflexivity].
    intros ->. simpl in Hlen. lia.
  - intros [[stem [Hne ->]] Hdir]. split; [|assumption]. split; [|eauto].
    rewrite string_length_append. simpl.
    destruct stem; [congruence | simpl; lia].
Qed.

(** ** The first argument *)

Lemma is_flag_cases (a : string) :
  is_flag a = true ->
  a = "-h"%string \/ a = "--help"%string \/ a = "-v"%string
  \/ a = "--version"%string \/ a = "--usage"%string.
Proof.
  unfold is_flag, in_tuple. simpl existsb.
  rewrite !orb_true_iff, !String.eqb_eq. intuition discriminate.
Qed.

Lemma last4_tail (stem t : string) :
  String.length t = 4 -> last4 (stem ++ t)%string = t.
Proof.
  intros H. unfold last4. rewrite string_length_append, H.
  replace (String.length stem + 4 - 4) with (String.length stem) by lia.
  rewrite substring_skip, <- H. apply substring_all.
Qed.

Lemma flag_handling_text (W : world) a rest st text :
  (if in_tuple a ["-h"; "--help"] then Some HELP
   else if in_tuple a ["-v"; "--version"] then Some VERSION
   else if (a =? "--usage")%string then Some USAGE
   else None) = Some text ->
  io_fault W (tick st) = None ->
  flag_handling W (a :: rest) st
  = (Raises (SystemExit 0), record (EWrite Stdout (text ++ LF)%string) st).
Proof.
  intros H Hio. unfold flag_handling.
  rewrite bind_assoc. change (getitem (a :: rest) 0) with (@ret string a).
  rewrite !bind_ret.
  destruct (in_tuple a ["-h"; "--help"]).
  { injection H as <-. rewrite bind_print by assumption. reflexivity. }
  rewrite bind_assoc. rewrite !bind_ret.
  destruct (in_tuple a ["-v"; "--version"]).
  { injection H as <-. rewrite bind_print by assumption. reflexivity. }
  rewrite bind_assoc. rewrite !bind_ret.
  destruct (a =? "--usage")%string; [|discriminate H].
  injection H as <-. rewrite bind_print by assumption. reflexivity.
Qed.

(** X2: a help, version or usage flag in first position prints its text
    on standard output and ends the run with status 0; the arguments after
    it are not looked at, and nothing is compiled. *)
Theorem flag_prints_its_text (W : world) (a : string) (rest : list string) (text : string) :
  ((a = "-h" \/ a = "--help") /\ text = HELP)%string
  \/ ((a = "-v" \/ a = "--version") /\ text = VERSION)%string
  \/ (a = "--usage" /\ text = USAGE)%string ->
  io_fault W 0 = None ->
  script W (a :: rest)
  = (Some 0%Z,
     {| log := [EWrite Stdout (text ++ LF)%string]; lock_held := false; tick := 1 |}).
Proof.
  intros Hflag Hio. apply script_of_exit_0. unfold main.
  erewrite bind_raises; [reflexivity|].
  change {| log := [EWrite Stdout (text ++ LF)%string]; lock_held := false; tick := 1 |}
    with (record (EWrite Stdout (text ++ LF)%string) initial_state).
  apply flag_handling_text; [|exact Hio].
  destruct Hflag as [[[-> | ->] ->] | [[[-> | ->] ->] | [-> ->]]]; reflexivity.
Qed.

Lemma flag_prints_its_text_witness :
  script quiet_host ["--version"; "a.ufo"; "no such path"]
  = (Some 0%Z,
     {| log := [EWrite Stdout (VERSION ++ LF)%string]; lock_held := false; tick := 1 |}).
Proof.
  apply (flag_prints_its_text quiet_host "--version" ["a.ufo"; "no such path"] VERSION).
  - right. left. split; [right; reflexivity | reflexivity].
  - reflexivity.
Defined.

(** ** What the command line error handling reports *)

(** X3: the command line error handling stops at the first source path
    that fails a test: that path alone is reported, one line on standard
    error, with status 1, and what the paths after it are does not
    matter. *)
Theorem first_invalid_path_is_reported
  (W : world) (pre : list string) (q : string) (post : list string) :
  forallb (valid_path W) pre = true ->
  valid_path W q = false ->
  (pre = [] -> is_flag q = false) ->
  io_fault W 0 = None ->
  script W (pre ++ q :: post)
  = (Some 1%Z,
     {| log := [EWrite Stderr (path_diagnostic W q)]; lock_held := false; tick := 1 |}).
Proof.
  intros Hpre Hq Hflag Hio. apply script_of_exit_1.
  destruct pre as [|a pre'].
  - apply (main_of_invalid W q post [] q post initial_state); auto.
  - apply (main_of_invalid W a (pre' ++ q :: post) (a :: pre') q post initial_state);
      auto.
    apply valid_not_flag with (W := W).
    simpl in Hpre. apply andb_prop in Hpre. tauto.
Qed.

Lemma first_invalid_path_is_reported_witness :
  script quiet_host (["a.ufo"] ++ "b.txt" :: ["c"; "d.ufo"])
  = (Some 1%Z,
     {| log := [EWrite Stderr (path_diagnostic quiet_host "b.txt")];
        lock_held := false; tick := 1 |}).
Proof.
  apply (first_invalid_path_is_reported quiet_host ["a.ufo"] "b.txt" ["c"; "d.ufo"]).
  - reflexivity.
  - reflexivity.
  - discriminate.
  - reflexivity.
Defined.

Lemma no_flag_ends_in (t : string) (a : string) :
  last4 a = t ->
  t <> "-h"%string -> t <> "help"%string -> t <> "-v"%string ->
  t <> "sion"%string -> t <> "sage"%string ->
  is_flag a = false.
Proof.
  intros Ht H1 H2 H3 H4 H5.
  destruct (is_flag a) eqn:Hf; [|reflexivity].
  apply is_flag_cases in Hf.
  destruct Hf as [-> | [-> | [-> | [-> | ->]]]]; vm_compute in Ht; congruence.
Qed.

(** X4: a source path written with a trailing slash, [stem.ufo/], is
    rejected -- whether or not it is an existing directory -- with the
    message that it does not appear to be a UFO source directory, and the
    run ends with status 1. *)
Theorem trailing_slash_is_rejected (W : world) (stem : string) (rest : list string) :
  io_fault W 0 = None ->
  valid_path W (stem ++ ".ufo/")%string = false
  /\ script W ((stem ++ ".ufo/")%string :: rest)
     = (Some 1%Z,
        {| log := [EWrite Stderr
                     ("[ERROR] '" ++ (stem ++ ".ufo/")
                      ++ "' does not appear to be a UFO source directory"
                      ++ linesep W)%string];
           lock_held := false; tick := 1 |}).
Proof.
  intros Hio.
  assert (Hlast : last4 (stem ++ ".ufo/")%string = "ufo/"%string).
  { replace (stem ++ ".ufo/")%string with ((stem ++ ".") ++ "ufo/")%string.
    - apply last4_tail. reflexivity.
    - induction stem as [|c stem IH]; simpl; [reflexivity | rewrite IH; reflexivity]. }
  assert (Hlen : (String.length (stem ++ ".ufo/")%string <? 5)%nat = false).
  { apply Nat.ltb_ge. rewrite string_length_append. simpl. lia. }
  assert (Hv : valid_path W (stem ++ ".ufo/")%string = false).
  { unfold valid_path. rewrite Hlast.
    change ("ufo/" =? ".ufo")%string with false.
    rewrite andb_false_r. reflexivity. }
  split; [exact Hv|].
  apply script_of_exit_1.
  rewrite (main_of_invalid W _ rest [] (stem ++ ".ufo/")%string rest initial_state);
    try reflexivity; try assumption.
  - unfold path_diagnostic. rewrite Hlen, Hlast. reflexivity.
  - apply (no_flag_ends_in "ufo/" _ Hlast); discriminate.
Qed.

Lemma trailing_slash_is_rejected_witness :
  valid_path quiet_host ("Font" ++ ".ufo/")%string = false
  /\ script quiet_host [("Font" ++ ".ufo/")%string; "b.ufo"]
     = (Some 1%Z,
        {| log := [EWrite Stderr
                     ("[ERROR] '" ++ ("Font" ++ ".ufo/")
                      ++ "' does not appear to be a UFO source directory"
                      ++ linesep quiet_host)%string];
           lock_held := false; tick := 1 |}).
Proof.
  apply (trailing_slash_is_rejected quiet_host "Font" ["b.ufo"]). reflexivity.
Defined.

(** X5: the options [--ttf] and [--otf] that the usage text lists are not
    handled: given first, either is taken for a source path and rejected,
    the run ends with status 1 and nothing is compiled. *)
Theorem ttf_otf_options_are_rejected (W : world) (a : string) (rest : list string) :
  a = "--ttf"%string \/ a = "--otf"%string ->
  io_fault W 0 = None ->
  script W (a :: rest)
  = (Some 1%Z,
     {| log := [EWrite Stderr
                  ("[ERROR] '" ++ a
                   ++ "' does not appear to be a UFO source directory"
                   ++ linesep W)%string];
        lock_held := false; tick := 1 |}).
Proof.
  intros Ha Hio. apply script_of_exit_1.
  rewrite (main_of_invalid W a rest [] a rest initial_state);
    try reflexivity; try assumption;
    destruct Ha as [-> | ->]; reflexivity.
Qed.

Lemma ttf_otf_options_are_rejected_witness :
  script quiet_host ["--otf"; "a.ufo"]
  = (Some 1%Z,
     {| log := [EWrite Stderr
                  ("[ERROR] '" ++ "--otf"
                   ++ "' does not appear to be a UFO source directory"
                   ++ linesep quiet_host)%string];
        lock_held := false; tick := 1 |}).
Proof.
  apply (ttf_otf_options_are_rejected quiet_host "--otf" ["a.ufo"]).
  - right. reflexivity.
  - reflexivity.
Defined.

(** ** The lock, on any host *)

Lemma bind_output_cases (W : world) {B} ev (k : unit -> M B) st :
  (exists e, bind (output W ev) k st = (Raises e, advance st))
  \/ bind (output W ev) k st = k tt (record ev st).
Proof.
  unfold bind, output. destruct (io_fault W (tick st)) as [e|]; [left; eauto | right; reflexivity].
Qed.

(** After a compile that failed with an [Exception], on a lock that was
    free: [build_fonts] either returns with the lock free again, or raises
    with the lock held. *)
Lemma build_fonts_lock_after (W : world) ufo_path st e :
  lock_held st = false ->
  run_from_ufos W (tick st) ufo_path = Some e ->
  is_Exception e = true ->
  match fst (build_fonts W ufo_path st) with
  | Returns _ => lock_held (snd (build_fonts W ufo_path st)) = false
  | Raises _ => lock_held (snd (build_fonts W ufo_path st)) = true
  | Blocks => False
  end.
Proof.
  intros Hlock Hrun He.
  unfold build_fonts, try_except_Exception, FontProject_run_from_ufos.
  rewrite Hrun, He.
  unfold print, stdout_flush, print_exc.
  erewrite bind_returns
    by (unfold lock_acquire; cbn [record lock_held]; rewrite Hlock; reflexivity).
  repeat match goal with
  | |- context [bind (output W ?ev) ?k ?s] =>
      destruct (bind_output_cases W ev k s) as [[? ->] | ->]; [reflexivity|]
  end.
  reflexivity.
Qed.

(** X6: whatever the host does to the writes, a job whose compile failed
    with an [Exception] and that found the lock free never blocks, and
    leaves the lock held exactly when it raises: a job that returns has
    released the lock, a job whose report raised has not. *)
Theorem lock_is_held_exactly_after_a_raise
  (W : world) (ufo_path : string) (st : state) (e : exn) :
  lock_held st = false ->
  run_from_ufos W (tick st) ufo_path = Some e ->
  is_Exception e = true ->
  fst (build_fonts W ufo_path st) <> Blocks
  /\ (lock_held (snd (build_fonts W ufo_path st)) = true
      <-> exists e', fst (build_fonts W ufo_path st) = Raises e').
Proof.
  intros Hlock Hrun He.
  pose proof (build_fonts_lock_after W ufo_path st e Hlock Hrun He) as H.
  destruct (fst (build_fonts W ufo_path st)) as [[]|e'|].
  - split; [discriminate|]. rewrite H. split; [discriminate | intros [? Hx]; discriminate Hx].
  - split; [discriminate|]. rewrite H. split; eauto.
  - destruct H.
Qed.

Lemma lock_is_held_exactly_after_a_raise_witness :
  fst (build_fonts broken_pipe_host "b.ufo" initial_state) <> Blocks
  /\ (lock_held (snd (build_fonts broken_pipe_host "b.ufo" initial_state)) = true
      <-> exists e', fst (build_fonts broken_pipe_host "b.ufo" initial_state) = Raises e').
Proof.
  apply (lock_is_held_exactly_after_a_raise broken_pipe_host "b.ufo" initial_state bad_glyph).
  - reflexivity.
  - reflexivity.
  - reflexivity.
Defined.

(** X7: two jobs on the same lock, one after the other.  When the first
    one's compile failed and its report raised, a second job whose
    compile fails too never returns: it blocks in [lock.acquire()], after
    its compile and before any line of its report. *)
Theorem job_blocks_after_a_raised_report
  (W : world) (p1 p2 : string) (st : state) (e1 e2 e' : exn) :
  lock_held st = false ->
  run_from_ufos W (tick st) p1 = Some e1 ->
  is_Exception e1 = true ->
  fst (build_fonts W p1 st) = Raises e' ->
  run_from_ufos W (tick (snd (build_fonts W p1 st))) p2 = Some e2 ->
  is_Exception e2 = true ->
  build_fonts W p2 (snd (build_fonts W p1 st))
  = (Blocks, record (ECompile p2 BUILD_FILE_TYPE) (snd (build_fonts W p1 st))).
Proof.
  intros Hlock Hrun1 He1 Hraise Hrun2 He2.
  pose proof (build_fonts_lock_after W p1 st e1 Hlock Hrun1 He1) as H.
  rewrite Hraise in H.
  unfold build_fonts at 1, try_except_Exception, FontProject_run_from_ufos.
  rewrite Hrun2, He2.
  apply bind_blocks. unfold lock_acquire. cbn [record lock_held]. rewrite H.
  reflexivity.
Qed.

Lemma job_blocks_after_a_raised_report_witness :
  build_fonts broken_pipe_host "b.ufo" (snd (build_fonts broken_pipe_host "b.ufo" initial_state))
  = (Blocks,
     record (ECompile "b.ufo" BUILD_FILE_TYPE)
       (snd (build_fonts broken_pipe_host "b.ufo" initial_state))).
Proof.
  apply (job_blocks_after_a_raised_report broken_pipe_host "b.ufo" "b.ufo" initial_state
           bad_glyph bad_glyph broken_pipe).
  - reflexivity.
  - reflexivity.
  - reflexivity.
  - reflexivity.
  - reflexivity.
  - reflexivity.
Defined.

(** ** Statements that do not return *)

Lemma never_sys_exit {A} (code : Z) : never_returns (@sys_exit A code).
Proof. intros st a. discriminate. Qed.

Lemma never_bind_l {A B} (m : M A) (k : A -> M B) :
  never_returns m -> never_returns (bind m k).
Proof.
  intros Hm st b. unfold bind. specialize (Hm st).
  destruct (m st) as [[a|e|] st']; simpl in *; try discriminate.
  exfalso. eapply Hm. reflexivity.
Qed.

Lemma never_bind_r {A B} (m : M A) (k : A -> M B) :
  (forall a, never_returns (k a)) -> never_returns (bind m k).
Proof.
  intros Hk st b. unfold bind.
  destruct (m st) as [[a|e|] st']; simpl; try discriminate. apply Hk.
Qed.

Lemma never_begin_compile (W : world) processes argv :
  never_returns (begin_compile W processes argv).
Proof.
  unfold begin_compile.
  do 2 (apply never_bind_r; intros _).
  destruct (length argv =? 1)%nat;
    repeat (apply never_bind_r; intros ?); apply never_sys_exit.
Qed.

(** X8: [main] never falls off its end.  Whatever the arguments and
    whatever the host does, a call of [main] ends in [sys.exit], in an
    exception, or does not end; so does its compile block. *)
Theorem main_never_returns (W : world) (argv : list string) :
  never_returns (main W argv)
  /\ forall processes, never_returns (begin_compile W processes argv).
Proof.
  split; [|intros; apply never_begin_compile].
  unfold main. apply never_bind_r; intros _. cbv zeta.
  apply never_bind_r; intros _. apply never_begin_compile.
Qed.

(** ** The compiler is called on validated paths only *)

Lemma for_each_returns {A} (ok : A -> bool) (l : list A) (body : A -> M unit) :
  (forall x, ok x = false -> never_returns (body x)) ->
  forall st st', for_each l body st = (Returns tt, st') -> forallb ok l = true.
Proof.
  intros Hbody. induction l as [|x l IH]; intros st st' H; simpl; [reflexivity|].
  simpl in H. unfold bind in H.
  destruct (body x st) as [[[]|e|] s] eqn:Hx; try discriminate H.
  destruct (ok x) eqn:Hok.
  - simpl. eapply IH. exact H.
  - exfalso. apply (Hbody x Hok st tt). rewrite Hx. reflexivity.
Qed.

(** The command line error handling returns on valid paths only. *)
Lemma command_line_returns_valid (W : world) argv st st' :
  command_line_error_handling W argv st = (Returns tt, st') ->
  forallb (valid_path W) argv = true.
Proof.
  unfold command_line_error_handling. intros H.
  destruct argv as [|a rest]; [reflexivity|].
  cbn [length Nat.eqb] in H. rewrite bind_ret in H.
  eapply for_each_returns; [|exact H].
  intros x Hx. unfold valid_path in Hx. cbv beta.
  destruct (String.length x <? 5)%nat eqn:H1.
  { apply never_bind_r. intros _. apply never_sys_exit. }
  destruct (last4 x =? ".ufo")%string eqn:H2; simpl negb; cbv iota.
  2:{ apply never_bind_r. intros _. apply never_sys_exit. }
  apply Nat.ltb_ge, Nat.leb_le in H1. rewrite H1 in Hx. simpl in Hx.
  rewrite Hx. simpl negb. cbv iota.
  apply never_bind_r. intros _. apply never_sys_exit.
Qed.

Lemma only_writes_flag_handling (W : world) argv : only is_write (flag_handling W argv).
Proof.
  unfold flag_handling, print.
  repeat first
    [ only_step
    | match goal with |- only _ (if ?c then _ else _) => destruct c end
    | exact I ].
Qed.

Lemma only_writes_command_line (W : world) argv :
  only is_write (command_line_error_handling W argv).
Proof.
  unfold command_line_error_handling, stderr_write.
  apply only_bind.
  { destruct (length argv =? 0)%nat; repeat only_step; exact I. }
  intros _. apply only_for_each. intros p.
  repeat first
    [ only_step
    | match goal with |- only _ (if ?c then _ else _) => destruct c end
    | exact I ].
Qed.

(** A run either stops before the compile block, having at most written
    text, or its paths are all valid and it is its compile block. *)
Lemma main_log_cases (W : world) argv :
  Forall is_write (log (snd (main W argv initial_state)))
  \/ (argv <> [] /\ forallb (valid_path W) argv = true
      /\ main W argv initial_state = begin_compile W PROCESSES argv initial_state).
Proof.
  destruct (forallb (valid_path W) argv) eqn:Hall.
  - destruct argv as [|a rest]; [left; constructor|].
    right. split; [discriminate|]. split; [reflexivity|].
    apply main_of_valid; [discriminate | exact Hall].
  - left. unfold main. cbv zeta. unfold bind at 1.
    destruct (only_writes_flag_handling W argv initial_state) as [new1 [E1 F1]].
    destruct (flag_handling W argv initial_state) as [[[]|e|] st1] eqn:Hflag;
      simpl in E1; try (cbn [snd]; rewrite E1; exact F1).
    unfold bind.
    destruct (only_writes_command_line W argv st1) as [new2 [E2 F2]].
    destruct (command_line_error_handling W argv st1) as [[[]|e|] st2] eqn:Hcl;
      simpl in E2; try (cbn [snd]; rewrite E2, E1; apply Forall_app; auto).
    apply command_line_returns_valid in Hcl. congruence.
Qed.

Lemma only_compile_of_build_fonts (W : world) argv p :
  In p argv -> only (compile_of argv) (build_fonts W p).
Proof.
  intros Hin st. destruct (build_fonts_log W p st) as [rest [E F]].
  eexists. split; [exact E|]. constructor.
  - intros q o H. injection H as <- <-. auto.
  - eapply Forall_impl; [|exact F]. intros ev Hev q o ->. destruct Hev.
Qed.

Lemma only_bind_ret (P : event -> Prop) {A B} (a : A) (k : A -> M B) :
  only P (k a) -> only P (bind (ret a) k).
Proof. intros H st. exact (H st). Qed.

Lemma only_compile_of_begin_compile (W : world) processes argv :
  only (compile_of argv) (begin_compile W processes argv).
Proof.
  assert (Hw : forall s t, compile_of argv (EWrite s t)) by (intros s t p o H; discriminate H).
  unfold begin_compile, print.
  do 2 (apply only_bind; [apply only_output, Hw | intros _]).
  destruct (length argv =? 1)%nat.
  - do 2 (apply only_bind; [apply only_output, Hw | intros _]).
    unfold getitem. destruct (nth_error argv 0) as [p0|] eqn:Hp0.
    + apply only_bind_ret. apply only_bind; [|intros; apply only_sys_exit].
      apply only_compile_of_build_fonts. eapply nth_error_In. exact Hp0.
    + intros st. exists []. simpl. rewrite app_nil_r. auto.
  - apply only_bind.
    { destruct (processes =? 0)%nat; repeat only_step; apply Hw. }
    intros n. apply only_bind.
    { destruct (length argv <? n)%nat; repeat only_step; apply Hw. }
    intros n'.
    do 3 (apply only_bind; [apply only_output, Hw | intros _]).
    apply only_bind; [apply only_Pool; intros p o H; discriminate H | intros q].
    apply only_bind; [|intros; apply only_sys_exit].
    apply only_pool_map. intros job Hjob. apply only_compile_of_build_fonts, Hjob.
Qed.

(** X9: whatever the host does, the compiler is only ever called on a
    source path of the argument list, for both build file types, and only
    in a run all of whose paths passed the command line error handling: a
    single path that fails a test keeps every path from being compiled. *)
Theorem compiler_sees_only_validated_paths
  (W : world) (argv : list string) (p : string) (o : list string) :
  In (ECompile p o) (log (snd (script W argv))) ->
  forallb (valid_path W) argv = true
  /\ In p argv
  /\ valid_path W p = true
  /\ o = ["ttf"; "otf"]%string.
Proof.
  intros Hin.
  destruct (script_log W argv) as [extra [E Hextra]].
  rewrite E in Hin. apply in_app_or in Hin as [Hin|Hin].
  2:{ rewrite Forall_forall in Hextra. destruct (Hextra _ Hin) as [e He]. discriminate He. }
  destruct (main_log_cases W argv) as [Hw | [Hne [Hall Hmain]]].
  - rewrite Forall_forall in Hw. destruct (Hw _ Hin).
  - rewrite Hmain in Hin.
    destruct (only_compile_of_begin_compile W PROCESSES argv initial_state)
      as [new [E' Hnew]].
    rewrite E' in Hin. simpl in Hin.
    rewrite Forall_forall in Hnew.
    destruct (Hnew _ Hin p o eq_refl) as [Hp Ho].
    split; [exact Hall|]. split; [exact Hp|]. split; [|exact Ho].
    rewrite forallb_forall in Hall. apply Hall, Hp.
Qed.

Lemma compiler_sees_only_validated_paths_witness :
  forallb (valid_path failing_host) ["a.ufo"; "b.ufo"] = true
  /\ In "b.ufo"%string ["a.ufo"; "b.ufo"]%string
  /\ valid_path failing_host "b.ufo" = true
  /\ ["ttf"; "otf"]%string = ["ttf"; "otf"]%string.
Proof.
  apply (compiler_sees_only_validated_paths failing_host ["a.ufo"; "b.ufo"] "b.ufo").
  vm_compute. auto 20.
Defined.

(** ** Runs without a failure *)

Section Quiet.

Variable W : world.
Hypothesis Hcompletes : forall n p, run_from_ufos W n p = None.

Lemma task_quiet task st :
  for_each task (build_fonts W) st
  = (Returns tt,
     {| log := log st ++ map (fun p => ECompile p BUILD_FILE_TYPE) task;
        lock_held := lock_held st;
        tick := length task + tick st |}).
Proof.
  revert st. induction task as [|job task IH]; intros st; simpl.
  - rewrite app_nil_r. destruct st; reflexivity.
  - erewrite bind_returns by (apply build_fonts_completes, Hcompletes).
    rewrite IH. cbn [record log lock_held tick]. rewrite <- app_assoc.
    do 2 f_equal. lia.
Qed.

Lemma serve_quiet n workers pending st :
  length pending = n -> 1 <= workers ->
  exists order st',
    Permutation order (concat pending)
    /\ serve W (build_fonts W) n workers pending None false st = (Returns tt, st')
    /\ log st' = log st ++ map (fun p => ECompile p BUILD_FILE_TYPE) order
    /\ lock_held st' = lock_held st.
Proof.
  intros Hlen Hw. revert pending st Hlen.
  induction n as [|n IH]; intros pending st Hlen.
  - destruct pending; [|discriminate]. exists [], st. simpl.
    rewrite app_nil_r. auto.
  - destruct (pick_in_range pending n (pick W (tick st)) Hlen) as [task Htask].
    assert (Hlen' : length (remove_nth (pick W (tick st) mod length pending) pending) = n).
    { pose proof (remove_nth_length _ _ _ Htask). lia. }
    destruct (IH _ {| log := log st ++ map (fun p => ECompile p BUILD_FILE_TYPE) task;
                      lock_held := lock_held st;
                      tick := length task + tick st |} Hlen')
      as [order [st' [Hperm [Hserve [Hlog Hlock]]]]].
    exists (task ++ order), st'. split.
    { eapply perm_trans; [apply Permutation_app_head, Hperm|].
      change (task ++ concat (remove_nth (pick W (tick st) mod length pending) pending))
        with (concat (task :: remove_nth (pick W (tick st) mod length pending) pending)).
      apply Permutation_concat_tasks, Permutation_sym, remove_nth_perm, Htask. }
    split.
    { simpl. rewrite Htask.
      replace (workers =? 0)%nat with false by (symmetry; apply Nat.eqb_neq; lia).
      rewrite task_quiet. exact Hserve. }
    split; [|exact Hlock].
    rewrite Hlog. cbn [log]. rewrite map_app, <- app_assoc. reflexivity.
Qed.

Lemma pool_map_quiet processes iterable st :
  1 <= processes -> iterable <> [] ->
  exists order st',
    Permutation order iterable
    /\ pool_map W processes (build_fonts W) iterable st = (Returns tt, st')
    /\ log st' = log st ++ map (fun p => ECompile p BUILD_FILE_TYPE) order
    /\ lock_held st' = lock_held st.
Proof.
  intros Hp Hne. unfold pool_map.
  destruct (serve_quiet
              (length (get_tasks (length iterable)
                         (chunksize (length iterable) processes) iterable))
              processes _ st eq_refl Hp)
    as [order [st' [Hperm [Hserve [Hlog Hlock]]]]].
  exists order, st'. split; [|auto].
  rewrite get_tasks_concat in Hperm; [exact Hperm | | lia].
  apply chunksize_pos; [|exact Hp].
  destruct iterable; [congruence | simpl; lia].
Qed.

End Quiet.

(** X10: a run on valid source paths in which every compile completes
    and every write goes through consists of its progress lines, the
    creation of the pool when there are several paths, and one compile
    per source path, in some order: nothing is written to standard error,
    the lock is never taken, and the exit status is 0. *)
Theorem quiet_run (W : world) (argv : list string) :
  no_io_fault W ->
  (forall n p, run_from_ufos W n p = None) ->
  1 <= cpu_count W ->
  argv <> [] -> forallb (valid_path W) argv = true ->
  exists order,
    Permutation order argv
    /\ fst (script W argv) = Some 0%Z
    /\ log (snd (script W argv))
       = dispatch_progress W argv ++ map (fun p => ECompile p BUILD_FILE_TYPE) order
    /\ lock_held (snd (script W argv)) = false.
Proof.
  intros Hio Hall Hcpu Hne Hvalid.
  assert (H : exists order st,
             Permutation order argv
             /\ main W argv initial_state = (Raises (SystemExit 0), st)
             /\ log st = dispatch_progress W argv
                         ++ map (fun p => ECompile p BUILD_FILE_TYPE) order
             /\ lock_held st = false).
  { rewrite main_of_valid by assumption. unfold dispatch_progress.
    destruct argv as [|p [|p' rest]]; [congruence| |].
    - exists [p]. eexists. split; [apply Permutation_refl|].
      rewrite begin_compile_single by assumption.
      erewrite bind_returns by (apply build_fonts_completes, Hall).
      split; [reflexivity|]. cbn [record log lock_held initial_state].
      split; reflexivity.
    - destruct (begin_compile_pool W Hio (p :: p' :: rest) initial_state)
        as [st1 [Hrun [Hl1 Hlog1]]]; [simpl; lia | exact Hcpu |].
      destruct (pool_map_quiet W Hall
                  (Nat.min (cpu_count W) (length (p :: p' :: rest))) (p :: p' :: rest) st1)
        as [order [st' [Hperm [Hserve [Hlog Hlock]]]]]; [simpl; lia | discriminate |].
      exists order, st'. split; [exact Hperm|].
      rewrite Hrun. erewrite bind_returns by exact Hserve.
      split; [reflexivity|]. split.
      + rewrite Hlog, Hlog1. cbn [log initial_state app length Nat.eqb].
        rewrite <- !app_assoc. reflexivity.
      + rewrite Hlock, Hl1. reflexivity. }
  destruct H as [order [st [Hperm [Hmain [Hlog Hlock]]]]].
  exists order. rewrite (script_of_exit W _ _ _ Hmain). cbn [fst snd]. auto.
Qed.

Lemma quiet_run_witness :
  exists order,
    Permutation order ["a.ufo"; "c.ufo"; "a.ufo"]
    /\ fst (script quiet_host ["a.ufo"; "c.ufo"; "a.ufo"]) = Some 0%Z
    /\ log (snd (script quiet_host ["a.ufo"; "c.ufo"; "a.ufo"]))
       = dispatch_progress quiet_host ["a.ufo"; "c.ufo"; "a.ufo"]
         ++ map (fun p => ECompile p BUILD_FILE_TYPE) order
    /\ lock_held (snd (script quiet_host ["a.ufo"; "c.ufo"; "a.ufo"])) = false.
Proof.
  apply (quiet_run quiet_host ["a.ufo"; "c.ufo"; "a.ufo"]).
  - intros n. reflexivity.
  - intros n p. reflexivity.
  - simpl. lia.
  - discriminate.
  - reflexivity.
Defined.

(** ** The order of a run in a pool *)

(** X11: a run on several valid source paths, with working output,
    first prints its progress lines -- the number of cores detected, and
    the line on limiting the processes exactly when there are fewer
    source paths than cores -- and only then creates the pool; everything
    that follows, whatever the compiles do, is a compile, a lock
    operation or a line of a report. *)
Theorem pool_run_order (W : world) (argv : list string) :
  forallb (valid_path W) argv = true ->
  2 <= length argv ->
  no_io_fault W ->
  1 <= cpu_count W ->
  exists after,
    log (snd (script W argv))
    = pool_progress W (length argv)
      ++ EPool (Nat.min (cpu_count W) (length argv)) :: after
    /\ Forall job_event after.
Proof.
  intros Hall Hlen Hio Hcpu.
  assert (Hne : argv <> []) by (destruct argv; [simpl in Hlen; lia | discriminate]).
  destruct (script_log W argv) as [extra [-> Hextra]].
  rewrite main_of_valid by assumption.
  destruct (begin_compile_pool W Hio argv initial_state Hlen Hcpu) as [st1 [-> [_ Hlog]]].
  rewrite snd_bind_sys_exit.
  destruct (only_pool_map W job_event (Nat.min (cpu_count W) (length argv))
              (build_fonts W) argv (fun job _ => only_build_fonts W job) st1)
    as [new [Hnew Hjob]].
  rewrite Hnew, Hlog. cbn [log initial_state app].
  exists (new ++ extra). split.
  - rewrite <- !app_assoc. reflexivity.
  - apply Forall_app. split; [exact Hjob|].
    eapply Forall_impl; [|exact Hextra]. intros ev [e ->]. exact I.
Qed.

Lemma pool_run_order_witness :
  exists after,
    log (snd (script failing_host ["a.ufo"; "b.ufo"]))
    = pool_progress failing_host (length ["a.ufo"; "b.ufo"])
      ++ EPool (Nat.min (cpu_count failing_host) (length ["a.ufo"; "b.ufo"])) :: after
    /\ Forall job_event after.
Proof.
  apply (pool_run_order failing_host ["a.ufo"; "b.ufo"]).
  - reflexivity.
  - simpl. lia.
  - intros n. reflexivity.
  - simpl. lia.
Defined.

(** ** Failures that pass the handler, and output that fails *)

(** X12: in the single-job path a compile that leaves through
    [sys.exit(code)] is not caught by [except Exception]: the process
    ends with the status of that code, its low eight bits -- not with the
    0 of [main] -- after the four progress lines and the compile, without
    a report and without touching the lock.  (The compile of the
    single-job path is the fifth host operation of the run, at tick 4;
    the code is one that fits a C [int].) *)
Theorem single_job_system_exit_passes (W : world) (p : string) (code : Z) :
  no_io_fault W ->
  valid_path W p = true ->
  (- 2 ^ 31 <= code < 2 ^ 31)%Z ->
  run_from_ufos W 4 p = Some (SystemExit code) ->
  script W [p]
  = (Some (code mod 256)%Z,
     {| log := single_progress ++ [ECompile p BUILD_FILE_TYPE];
        lock_held := false;
        tick := 5 |})
  /\ (0 <= code mod 256 < 256)%Z.
Proof.
  intros Hio Hp Hcode Hrun. split; [|apply Z.mod_pos_bound; lia].
  apply script_of_exit.
  rewrite main_of_valid by (try discriminate; simpl; rewrite Hp; reflexivity).
  rewrite begin_compile_single by assumption.
  erewrite bind_raises; [reflexivity|].
  rewrite (build_fonts_escapes W p _ (SystemExit code)); [reflexivity | exact Hrun | reflexivity].
Qed.

Lemma single_job_system_exit_passes_witness :
  script (host (fun _ _ => Some (SystemExit 259)) (fun _ => None)) ["b.ufo"]
  = (Some (259 mod 256)%Z,
     {| log := single_progress ++ [ECompile "b.ufo" BUILD_FILE_TYPE];
        lock_held := false;
        tick := 5 |})
  /\ (0 <= 259 mod 256 < 256)%Z.
Proof.
  apply (single_job_system_exit_passes
           (host (fun _ _ => Some (SystemExit 259)) (fun _ => None)) "b.ufo" 259).
  - intros n. reflexivity.
  - reflexivity.
  - lia.
  - reflexivity.
Defined.

(** X13: when the first progress line cannot be written (the write
    raises an [Exception]), a run on valid source paths ends there with
    status 1: no pool is created and nothing is compiled. *)
Theorem broken_stdout_stops_the_run (W : world) (argv : list string) (e : exn) :
  argv <> [] -> forallb (valid_path W) argv = true ->
  io_fault W 0 = Some e ->
  is_Exception e = true ->
  main W argv initial_state = (Raises e, advance initial_state)
  /\ fst (script W argv) = Some 1%Z
  /\ compiled (log (snd (script W argv))) = []
  /\ pools (log (snd (script W argv))) = [].
Proof.
  intros Hne Hall Hio He.
  assert (E : main W argv initial_state = (Raises e, advance initial_state)).
  { rewrite main_of_valid by assumption. unfold begin_compile.
    apply bind_raises. unfold print, output. cbn [tick initial_state].
    rewrite Hio. reflexivity. }
  split; [exact E|].
  unfold script. rewrite E.
  destruct e as [cls msg|code]; [|discriminate He].
  unfold report_uncaught. destruct (io_fault W (tick (advance initial_state)));
    repeat split.
Qed.

Lemma broken_stdout_stops_the_run_witness :
  main (host (fun _ _ => None) (fun _ => Some broken_pipe)) ["a.ufo"; "b.ufo"] initial_state
  = (Raises broken_pipe, advance initial_state)
  /\ fst (script (host (fun _ _ => None) (fun _ => Some broken_pipe)) ["a.ufo"; "b.ufo"])
     = Some 1%Z
  /\ compiled (log (snd (script (host (fun _ _ => None) (fun _ => Some broken_pipe))
                           ["a.ufo"; "b.ufo"]))) = []
  /\ pools (log (snd (script (host (fun _ _ => None) (fun _ => Some broken_pipe))
                        ["a.ufo"; "b.ufo"]))) = [].
Proof.
  apply (broken_stdout_stops_the_run
           (host (fun _ _ => None) (fun _ => Some broken_pipe)) ["a.ufo"; "b.ufo"] broken_pipe).
  - discriminate.
  - reflexivity.
  - reflexivity.
  - reflexivity.
Defined.
